(** * AI Fashion Studio: request orchestration, verified against the sources

    A shallow embedding of the request/response plumbing of the application:
    - [Gateway]  : [services/geminiService], result validation of the three
                   image operations;
    - [DataUrl]  : what the handlers and the intake read from a data URL;
    - [Upload]   : [services/geminiService], the resize of uploaded images
                   and their reading into an asset;
    - [App]      : [App.tsx] ([handleGenerate], [handleEdit], the slot list
                   [generatedImages], the bounded [history]);
    - [LiveChat] : [components/LiveChat] (the playback watermark
                   [nextStartTimeRef] of the [onmessage] callback).

    JavaScript values are modelled as follows.  An optional property
    ([x?.y], [undefined], [null]) is an [option]; a string is a [string] of
    UTF-8 bytes; an array is a [list]; a thrown [Error] is the [Throw] branch
    of a small completion monad.  Truthiness tests of the source ([if (x)],
    [!x], [x && y]) are written out with [truthy]. *)

From Stdlib Require Import Bool List String Ascii Arith NArith ZArith QArith Lia.
From Stdlib Require Import Permutation.
Import ListNotations.

Set Implicit Arguments.

Close Scope Q_scope.
Local Open Scope nat_scope.
Local Open Scope string_scope.

(** ** JavaScript helpers *)

Module JS.

(** [if (s)] on an optional string: [undefined] and the empty string are
    falsy, every other string is truthy. *)
Definition truthy (s : option string) : bool :=
  match s with
  | Some s => negb (s =? "")
  | None => false
  end.

(** What a template literal prints for an optional string. *)
Definition str (s : option string) : string :=
  match s with
  | Some s => s
  | None => "undefined"
  end.

(** The double quote character, for messages that quote a value. *)
Definition dq : string := String (ascii_of_nat 34) EmptyString.

(** [a[i]] on an array whose holes and out-of-range reads are [undefined]. *)
Definition get {A} (l : list (option A)) (i : nat) : option A :=
  nth i l None.

(** [a[i] = v] on a copy of the array: in range it replaces the element, out
    of range it extends the array, leaving holes in between. *)
Fixpoint set {A} (l : list (option A)) (i : nat) (v : option A)
  : list (option A) :=
  match l, i with
  | [], O => [v]
  | [], S i' => None :: set [] i' v
  | _ :: l', O => v :: l'
  | x :: l', S i' => x :: set l' i' v
  end.

(** [a.slice(0, n)]. *)
Definition slice0 {A} (n : nat) (l : list A) : list A := firstn n l.

(** [Array(n).fill(v)]. *)
Definition fill {A} (n : nat) (v : A) : list A := repeat v n.

End JS.

(** ** The completion monad: a value returned or an error thrown *)

Inductive Completion (E A : Type) : Type :=
| Return (a : A)
| Throw (e : E).

Arguments Return {E A} a.
Arguments Throw {E A} e.

Definition bind {E A B} (c : Completion E A) (k : A -> Completion E B)
  : Completion E B :=
  match c with
  | Return a => k a
  | Throw e => Throw e
  end.

Declare Scope completion_scope.
Delimit Scope completion_scope with completion.
Notation "x <- c ;; k" := (bind c (fun x => k))
  (at level 61, c at next level, right associativity) : completion_scope.
Notation "c ;;; k" := (bind c (fun _ => k))
  (at level 61, right associativity) : completion_scope.

(** ** Generation Gateway ([services/geminiService]) *)

Module Gateway.

Import JS.

(** *** Wire format of a response

    The response of the SDK call is a JavaScript object; the records list
    every property that one of the three image operations reads. *)

Record SafetyRating := mkSafetyRating {
  category : option string;
  probability : option string
}.

Record PromptFeedback := mkPromptFeedback {
  blockReason : option string;
  pf_safetyRatings : option (list SafetyRating)
}.

Record InlineData := mkInlineData {
  data : option string;
  mimeType : option string
}.

Record Part := mkPart {
  inlineData : option InlineData;
  text : option string
}.

Record Content := mkContent {
  parts : option (list Part)
}.

Record Candidate := mkCandidate {
  finishReason : option string;
  safetyRatings : option (list SafetyRating);
  content : option Content
}.

Record Image := mkImage {
  imageBytes : option string
}.

Record GeneratedImage := mkGeneratedImage {
  image : option Image
}.

Record Response := mkResponse {
  promptFeedback : option PromptFeedback;
  candidates : option (list Candidate);
  generatedImages : option (list GeneratedImage)
}.

(** How the awaited SDK call completes: it returns a response, rejects with
    an [Error] carrying a message, or rejects with a value that is not an
    [Error]. *)
Inductive ApiOutcome :=
| ApiReturned (r : Response)
| ApiThrewError (msg : string)
| ApiThrewOther.

(** The two operations built on [ai.models.generateContent]. *)
Inductive ContentOp := TryOn | Edit.

(** *** Errors: one constructor per [throw] site *)

Inductive GatewayError :=
| Blocked (reason : string) (harmful : option SafetyRating)
| NoCandidate
| Safety (rating : option SafetyRating)
| MaxTokens
| Recitation
| NoImage (op : ContentOp)
| Incomplete (reason : string)
| NoContent
| TextInsteadOfImage (t : string)
| NoImageData
| ImagenNoResult
| ImagenNoBytes
| ApiError (msg : string)
| UnknownTryOn
| UnknownEdit
| UnknownImagen.

(** [err.message] of each error, as the source builds it. *)
Definition message (e : GatewayError) : string :=
  match e with
  | Blocked reason harmful =>
      "Yêu cầu bị chặn vì lý do: " ++ reason ++ "." ++
      match harmful with
      | Some r => " Vui lòng tránh nội dung liên quan đến " ++ dq ++
                  str (category r) ++ dq ++ "."
      | None => ""
      end
  | NoCandidate =>
      "AI không trả về kết quả. Vui lòng thử lại với một mô tả khác."
  | Safety (Some r) =>
      "Kết quả bị chặn vì lý do an toàn (danh mục: " ++ str (category r) ++
      "). Vui lòng điều chỉnh mô tả của bạn."
  | Safety None =>
      "Kết quả bị chặn vì lý do an toàn. Vui lòng điều chỉnh mô tả của bạn."
  | MaxTokens =>
      "Mô tả của bạn quá dài khiến kết quả bị cắt ngắn. Vui lòng rút ngắn và thử lại."
  | Recitation =>
      "Kết quả bị chặn do trích dẫn. Vui lòng thay đổi mô tả của bạn."
  | NoImage TryOn =>
      "AI không thể tạo ảnh từ mô tả này. Vui lòng thử thay đổi mô tả của bạn để rõ ràng hơn."
  | NoImage Edit =>
      "AI không thể chỉnh sửa ảnh theo yêu cầu này. Vui lòng thử một yêu cầu khác rõ ràng hơn."
  | Incomplete reason =>
      "AI không thể hoàn thành yêu cầu (lý do: " ++ reason ++
      "). Vui lòng thử lại."
  | NoContent =>
      "AI không trả về nội dung hợp lệ. Vui lòng thử lại."
  | TextInsteadOfImage t =>
      "AI đã trả về văn bản thay vì ảnh: " ++ dq ++ t ++ dq
  | NoImageData =>
      "Không nhận được ảnh từ AI. Phản hồi không chứa dữ liệu ảnh."
  | ImagenNoResult =>
      "AI không trả về kết quả hình ảnh. Yêu cầu của bạn có thể đã bị chặn."
  | ImagenNoBytes =>
      "AI không trả về kết quả hình ảnh hợp lệ. Vui lòng thử lại hoặc thay đổi mô tả."
  | ApiError msg => msg
  | UnknownTryOn =>
      "Đã xảy ra lỗi không xác định. Vui lòng thử lại."
  | UnknownEdit =>
      "Đã xảy ra lỗi không xác định khi chỉnh sửa ảnh. Vui lòng thử lại."
  | UnknownImagen =>
      "Đã xảy ra lỗi không xác định khi tạo ảnh. Vui lòng thử lại."
  end.

Definition Result := Completion GatewayError string.

Local Open Scope completion_scope.

(** *** Result validation of [generateTryOnImage] and [editImage]

    The two functions repeat the same statements after the call; they differ
    in the message of the [NO_IMAGE] case only, hence the [op] argument. *)

(** [r => r.probability !== 'NEGLIGIBLE' && r.probability !== 'LOW'] *)
Definition harmfulRating (r : SafetyRating) : bool :=
  match probability r with
  | Some p => negb (p =? "NEGLIGIBLE") && negb (p =? "LOW")
  | None => true
  end.

(** [ratings?.find(...)] *)
Definition findHarmful (ratings : option (list SafetyRating))
  : option SafetyRating :=
  match ratings with
  | Some l => find harmfulRating l
  | None => None
  end.

(** [if (response.promptFeedback?.blockReason) { ... throw new Error(message) }] *)
Definition checkPromptFeedback (r : Response) : Completion GatewayError unit :=
  match promptFeedback r with
  | Some pf =>
      if truthy (blockReason pf)
      then Throw (Blocked (str (blockReason pf)) (findHarmful (pf_safetyRatings pf)))
      else Return tt
  | None => Return tt
  end.

(** [const candidate = response.candidates?.[0]; if (!candidate) throw ...] *)
Definition firstCandidate (r : Response) : Completion GatewayError Candidate :=
  match candidates r with
  | Some (c :: _) => Return c
  | _ => Throw NoCandidate
  end.

(** [new Set(['STOP', 'FINISH_REASON_UNSPECIFIED'])] and its [has]. *)
Definition validFinishReasons : list string :=
  ["STOP"; "FINISH_REASON_UNSPECIFIED"].

Definition has (s : list string) (x : string) : bool :=
  existsb (String.eqb x) s.

(** The [switch (candidate.finishReason)] with its [default]. *)
Definition finishReasonError (op : ContentOp) (c : Candidate) (fr : string)
  : GatewayError :=
  if fr =? "SAFETY" then Safety (findHarmful (safetyRatings c))
  else if fr =? "MAX_TOKENS" then MaxTokens
  else if fr =? "RECITATION" then Recitation
  else if fr =? "NO_IMAGE" then NoImage op
  else Incomplete fr.

(** [if (candidate.finishReason && !validFinishReasons.has(candidate.finishReason)) switch ...] *)
Definition checkFinishReason (op : ContentOp) (c : Candidate)
  : Completion GatewayError unit :=
  if truthy (finishReason c) && negb (has validFinishReasons (str (finishReason c)))
  then Throw (finishReasonError op c (str (finishReason c)))
  else Return tt.

(** [if (!candidate.content?.parts?.length) throw ...] *)
Definition contentParts (c : Candidate) : Completion GatewayError (list Part) :=
  match content c with
  | Some ct =>
      match parts ct with
      | Some (p :: ps) => Return (p :: ps)
      | _ => Throw NoContent
      end
  | None => Throw NoContent
  end.

(** [`data:${part.inlineData.mimeType};base64,${generatedBase64}`] *)
Definition dataUrl (d : InlineData) : string :=
  "data:" ++ str (mimeType d) ++ ";base64," ++ str (data d).

(** First loop: [for (const part of parts) if (part.inlineData) return ...]. *)
Fixpoint scanInlineData (ps : list Part) : option string :=
  match ps with
  | [] => None
  | p :: ps' =>
      match inlineData p with
      | Some d => Some (dataUrl d)
      | None => scanInlineData ps'
      end
  end.

(** Second loop: [for (const part of parts) if (part.text) throw ...]. *)
Fixpoint scanText (ps : list Part) : option string :=
  match ps with
  | [] => None
  | p :: ps' =>
      if truthy (text p) then Some (str (text p)) else scanText ps'
  end.

Definition scanParts (ps : list Part) : Result :=
  match scanInlineData ps with
  | Some url => Return url
  | None =>
      match scanText ps with
      | Some t => Throw (TextInsteadOfImage t)
      | None => Throw NoImageData
      end
  end.

(** The statements of the [try] block that follow the awaited call. *)
Definition validateContentResponse (op : ContentOp) (r : Response) : Result :=
  checkPromptFeedback r ;;;
  candidate <- firstCandidate r ;;
  checkFinishReason op candidate ;;;
  ps <- contentParts candidate ;;
  scanParts ps.

(** The [catch] block rethrows an [Error] as it is and replaces anything else
    by a fixed message. *)
Definition generateTryOnImage (o : ApiOutcome) : Result :=
  match o with
  | ApiReturned r => validateContentResponse TryOn r
  | ApiThrewError msg => Throw (ApiError msg)
  | ApiThrewOther => Throw UnknownTryOn
  end.

Definition editImage (o : ApiOutcome) : Result :=
  match o with
  | ApiReturned r => validateContentResponse Edit r
  | ApiThrewError msg => Throw (ApiError msg)
  | ApiThrewOther => Throw UnknownEdit
  end.

(** *** Result validation of [generateImageFromText] *)

Definition validateImagesResponse (r : Response) : Result :=
  result <- match generatedImages r with
            | Some (g :: _) => Return g
            | _ => Throw ImagenNoResult
            end ;;
  match image result with
  | Some img =>
      if truthy (imageBytes img)
      then Return ("data:image/jpeg;base64," ++ str (imageBytes img))
      else Throw ImagenNoBytes
  | None => Throw ImagenNoBytes
  end.

Definition generateImageFromText (o : ApiOutcome) : Result :=
  match o with
  | ApiReturned r => validateImagesResponse r
  | ApiThrewError msg => Throw (ApiError msg)
  | ApiThrewOther => Throw UnknownImagen
  end.

End Gateway.

(** *** The error taxonomy and the validation algorithm in the words of the
    specification *)

Module GatewaySpec.

Import JS Gateway.

(** The error kinds of the specification that a Gateway image operation can
    produce, with what each carries.  [CallFailure] stands for an exception of
    the external call itself, which the operations propagate. *)
Inductive ErrorKind :=
| ContentBlocked (reason : string) (category : option string)
| EmptyResult
| SafetyBlocked (category : option string)
| TruncatedByLength
| RecitationBlocked
| NoImageProduced
| IncompleteGeneration (reason : string)
| UnexpectedTextResponse (t : string)
| CallFailure.

Definition categoryOf (r : option SafetyRating) : option string :=
  option_map (fun r => str (category r)) r.

(** The error kind of each [throw] site. *)
Definition errorKind (e : GatewayError) : ErrorKind :=
  match e with
  | Blocked reason harmful => ContentBlocked reason (categoryOf harmful)
  | NoCandidate => EmptyResult
  | Safety rating => SafetyBlocked (categoryOf rating)
  | MaxTokens => TruncatedByLength
  | Recitation => RecitationBlocked
  | NoImage _ => NoImageProduced
  | Incomplete reason => IncompleteGeneration reason
  | NoContent => EmptyResult
  | TextInsteadOfImage t => UnexpectedTextResponse t
  | NoImageData => EmptyResult
  | ImagenNoResult => EmptyResult
  | ImagenNoBytes => EmptyResult
  | ApiError _ => CallFailure
  | UnknownTryOn => CallFailure
  | UnknownEdit => CallFailure
  | UnknownImagen => CallFailure
  end.

Inductive Outcome :=
| Succeeds (imageUrl : string)
| Fails (k : ErrorKind).

Definition outcome (r : Result) : Outcome :=
  match r with
  | Return url => Succeeds url
  | Throw e => Fails (errorKind e)
  end.

(** The three image operations of the Gateway. *)
Inductive ImageOp := FromText | FromReferences | EditImage.

(** What an operation does with the response of its call. *)
Definition validate (op : ImageOp) (r : Response) : Result :=
  match op with
  | FromText => generateImageFromText (ApiReturned r)
  | FromReferences => generateTryOnImage (ApiReturned r)
  | EditImage => editImage (ApiReturned r)
  end.

(** "the response carries an explicit block reason" *)
Definition explicitBlockReason (r : Response) : option (string * option string) :=
  match promptFeedback r with
  | Some pf =>
      match blockReason pf with
      | Some reason =>
          if reason =? "" then None
          else Some (reason, categoryOf (findHarmful (pf_safetyRatings pf)))
      | None => None
      end
  | None => None
  end.

(** "a candidate is present" *)
Definition candidateOf (r : Response) : option Candidate :=
  match candidates r with
  | Some cs => hd_error cs
  | None => None
  end.

(** "the accepted set", in the names of the wire format. *)
Definition acceptedFinishReasons : list string :=
  ["STOP"; "FINISH_REASON_UNSPECIFIED"].

(** "the candidate's finish reason is not in the accepted set": the finish
    reason that is rejected, if any. *)
Definition rejectedFinishReason (c : Candidate) : option string :=
  match finishReason c with
  | Some fr =>
      if (fr =? "") || existsb (String.eqb fr) acceptedFinishReasons
      then None else Some fr
  | None => None
  end.

(** "the finish reason maps to a specific error kind" *)
Definition finishReasonKind (c : Candidate) (fr : string) : ErrorKind :=
  if fr =? "SAFETY" then SafetyBlocked (categoryOf (findHarmful (safetyRatings c)))
  else if fr =? "MAX_TOKENS" then TruncatedByLength
  else if fr =? "RECITATION" then RecitationBlocked
  else if fr =? "NO_IMAGE" then NoImageProduced
  else IncompleteGeneration fr.

(** "the candidate's content parts" *)
Definition partsOf (c : Candidate) : list Part :=
  match content c with
  | Some ct =>
      match parts ct with
      | Some ps => ps
      | None => []
      end
  | None => []
  end.

(** The binary-image parts of a candidate, in order. *)
Definition imageParts (ps : list Part) : list InlineData :=
  flat_map (fun p => match inlineData p with
                     | Some d => [d]
                     | None => []
                     end) ps.

(** The texts of the parts that carry a non-empty text, in order. *)
Definition textParts (ps : list Part) : list string :=
  flat_map (fun p => if truthy (text p) then [str (text p)] else []) ps.

(** "the first binary-image part is the success result, a text part (when no
    image part exists) fails with UnexpectedTextResponse carrying that text,
    and neither fails with EmptyResult" *)
Definition scanOrdered (ps : list Part) : Outcome :=
  match imageParts ps with
  | d :: _ => Succeeds (dataUrl d)
  | [] =>
      match textParts ps with
      | t :: _ => Fails (UnexpectedTextResponse t)
      | [] => Fails EmptyResult
      end
  end.

(** The shared result-validation algorithm, steps a to d in their order. *)
Definition sharedValidation (r : Response) : Outcome :=
  match explicitBlockReason r with
  | Some (reason, cat) => Fails (ContentBlocked reason cat)
  | None =>
      match candidateOf r with
      | None => Fails EmptyResult
      | Some c =>
          match rejectedFinishReason c with
          | Some fr => Fails (finishReasonKind c fr)
          | None => scanOrdered (partsOf c)
          end
      end
  end.



(** "the API returns no image candidate": for the text operation the
    candidates are the generated images.  A generated image has no finish
    reason, and its only content is its image, a JPEG, when it has image
    bytes. *)
Definition candidateOfImage (g : GeneratedImage) : Candidate :=
  mkCandidate None None
    (Some (mkContent
             (Some match image g with
                   | Some img =>
                       if truthy (imageBytes img)
                       then [mkPart (Some (mkInlineData (imageBytes img)
                                                        (Some "image/jpeg")))
                                    None]
                       else []
                   | None => []
                   end))).

(** The response as the steps a to d read it: block reason, candidates and
    their parts. *)
Definition reading (op : ImageOp) (r : Response) : Response :=
  match op with
  | FromText =>
      mkResponse (promptFeedback r)
                 (option_map (map candidateOfImage) (generatedImages r))
                 None
  | FromReferences | EditImage => r
  end.

(** An object that carries a block reason and nothing else. *)
Definition blockedResponse : Response :=
  mkResponse (Some (mkPromptFeedback (Some "SAFETY") None)) None None.


(** A response with the given prompt feedback and candidates. *)
Definition respond (pf : option PromptFeedback) (c : Candidate)
  (cs : list Candidate) : Response :=
  mkResponse pf (Some (c :: cs)) None.

End GatewaySpec.

(** ** Data URLs: what [split(',')[1]] and the MIME-type pattern read from one *)

Module DataUrl.

(** [s] starts with [p]. *)
Fixpoint startsWith (p s : string) : bool :=
  match p with
  | EmptyString => true
  | String a p' =>
      match s with
      | EmptyString => false
      | String b s' => Ascii.eqb a b && startsWith p' s'
      end
  end.

Fixpoint take (n : nat) (s : string) : string :=
  match n, s with
  | S n', String c s' => String c (take n' s')
  | _, _ => EmptyString
  end.

Fixpoint drop (n : nat) (s : string) : string :=
  match n, s with
  | S n', String _ s' => drop n' s'
  | _, _ => s
  end.

(** What follows the first comma, if there is a comma. *)
Fixpoint afterComma (s : string) : option string :=
  match s with
  | EmptyString => None
  | String c s' => if Ascii.eqb c ","%char then Some s' else afterComma s'
  end.

(** What precedes the first comma, or the whole string. *)
Fixpoint beforeComma (s : string) : string :=
  match s with
  | EmptyString => EmptyString
  | String c s' =>
      if Ascii.eqb c ","%char then EmptyString else String c (beforeComma s')
  end.

(** [baseImage.split(',')[1]]: the piece between the first and the second
    comma; [undefined] when there is no comma. *)
Definition base64Data (baseImage : string) : option string :=
  option_map beforeComma (afterComma baseImage).

(** The line terminators that the dot of a regular expression does not match:
    LF, CR, and U+2028, U+2029 in their UTF-8 bytes. *)
Definition LF : string := String (ascii_of_nat 10) EmptyString.
Definition CR : string := String (ascii_of_nat 13) EmptyString.
Definition LS : string :=
  String (ascii_of_nat 226) (String (ascii_of_nat 128) (String (ascii_of_nat 168) EmptyString)).
Definition PS : string :=
  String (ascii_of_nat 226) (String (ascii_of_nat 128) (String (ascii_of_nat 169) EmptyString)).

Definition atLineTerminator (s : string) : bool :=
  startsWith LF s || startsWith CR s || startsWith LS s || startsWith PS s.

(** The longest prefix that the greedy group can match. *)
Fixpoint line (s : string) : string :=
  match s with
  | EmptyString => EmptyString
  | String c s' => if atLineTerminator s then EmptyString else String c (line s')
  end.

(** The last position of [s] at which [p] starts. *)
Fixpoint lastOccurrence (p s : string) : option nat :=
  match s with
  | EmptyString => if startsWith p EmptyString then Some 0 else None
  | String _ s' =>
      match lastOccurrence p s' with
      | Some k => Some (S k)
      | None => if startsWith p s then Some 0 else None
      end
  end.

(** The first group of [baseImage.match(re)], where [re] is [data:], then a
    greedy group of any characters but line terminators, then [;base64,]:
    at the leftmost [data:] for which the rest of the pattern can match, the
    group extends to the last [;base64,] of the line. *)
Fixpoint matchMimeType (s : string) : option string :=
  match s with
  | EmptyString => None
  | String _ s' =>
      if startsWith "data:" s then
        match lastOccurrence ";base64," (line (drop 5 s)) with
        | Some k => Some (take k (drop 5 s))
        | None => matchMimeType s'
        end
      else matchMimeType s'
  end.

(** The [mimeType] of the handlers: the matched group, or ['image/jpeg']
    when there is no match or the group is empty. *)
Definition mimeType (baseImage : string) : string :=
  match matchMimeType baseImage with
  | Some m => if m =? "" then "image/jpeg" else m
  | None => "image/jpeg"
  end.

(** Characters of a MIME type or of base64 data as the service sends them:
    no comma, and for the MIME type no byte that starts a line terminator. *)
Definition notComma (c : ascii) : bool := negb (Ascii.eqb c ","%char).

Definition plainChar (c : ascii) : bool :=
  notComma c &&
  negb (Ascii.eqb c (ascii_of_nat 10)) &&
  negb (Ascii.eqb c (ascii_of_nat 13)) &&
  negb (Ascii.eqb c (ascii_of_nat 226)).

Fixpoint allChars (f : ascii -> bool) (s : string) : bool :=
  match s with
  | EmptyString => true
  | String c s' => f c && allChars f s'
  end.

End DataUrl.

(** ** Upload Intake ([resizeImageBlob], [fileToBase64], [imageUrlToBase64]) *)

Module Upload.

Local Open Scope N_scope.
Local Open Scope completion_scope.

(** [img.width] and [img.height], and later [canvas.width], [canvas.height]. *)
Record Dimensions := mkDimensions {
  width : N;
  height : N
}.

(** [Math.round(a / b)] for natural numbers [a] and [b > 0]: the quotient
    rounded to the nearest integer, a half rounded up. *)
Definition Math_round_div (a b : N) : N := (2 * a + b) / (2 * b).

(** The two nested [if]s of [img.onload]. *)
Definition resizeDimensions (d : Dimensions) (maxSize : N) : Dimensions :=
  if height d <? width d then
    if maxSize <? width d
    then mkDimensions maxSize (Math_round_div (height d * maxSize) (width d))
    else d
  else
    if maxSize <? height d
    then mkDimensions (Math_round_div (width d * maxSize) (height d)) maxSize
    else d.










(** The longer and the shorter side of an image. *)
Definition longerSide (d : Dimensions) : N := N.max (width d) (height d).
Definition shorterSide (d : Dimensions) : N := N.min (width d) (height d).


(** [out] keeps the proportions of [img] up to the rounding of one side to an
    integer: width to height is the same in both, by cross multiplication,
    up to half the longer side of [img]. *)
Definition keepsAspectRatio (img out : Dimensions) : Prop :=
  2 * (width out * height img)
    <= 2 * (width img * height out) + longerSide img /\
  2 * (width img * height out)
    <= 2 * (width out * height img) + longerSide img.


End Upload.

(** ** Lookbook Orchestrator ([App.tsx]) *)

Module App.

Import JS.

(** An uploaded image, [{ base64, mimeType }]. *)
Record UploadedImage := mkUploadedImage {
  base64 : string;
  mimeType : string
}.

(** [type ImageState = string | 'loading' | 'error' | null]: a slot holds a
    string (a data URL or one of the two marker strings) or nothing. *)
Definition ImageState := option string.

Definition loading : ImageState := Some "loading".
Definition errorMark : ImageState := Some "error".

(** The [useState] cells of the component that the two handlers use. *)
Record State := mkState {
  originalImages : list (option UploadedImage);
  modelDescription : string;
  photoStyle : string;
  aspectRatio : string;
  generatedImages : list ImageState;
  isLoading : bool;
  isEditing : bool;
  editPrompt : string;
  error : option string;
  history : list string;
  faceSourceIndex : option nat;
  isLookbookMode : bool
}.

Definition MAX_IMAGES : nat := 10.
Definition INITIAL_MODEL_DESCRIPTION : string :=
  "Người mẫu nữ cao 1m65, tóc dài, mặc áo từ ảnh 1".
Definition INITIAL_PHOTO_STYLE : string := "Chụp studio".
Definition INITIAL_ASPECT_RATIO : string := "3:4".

(** The state of the component when it mounts. *)
Definition initialState : State :=
  mkState (fill MAX_IMAGES None) INITIAL_MODEL_DESCRIPTION INITIAL_PHOTO_STYLE
          INITIAL_ASPECT_RATIO [] false false "" None [] None false.

(** The state setters; the functional ones receive the previous value. *)
Definition setOriginalImages (f : list (option UploadedImage) -> list (option UploadedImage))
  (s : State) : State :=
  mkState (f (originalImages s)) (modelDescription s) (photoStyle s)
          (aspectRatio s) (generatedImages s) (isLoading s) (isEditing s)
          (editPrompt s) (error s) (history s) (faceSourceIndex s)
          (isLookbookMode s).

Definition setModelDescription (d : string) (s : State) : State :=
  mkState (originalImages s) d (photoStyle s) (aspectRatio s)
          (generatedImages s) (isLoading s) (isEditing s) (editPrompt s)
          (error s) (history s) (faceSourceIndex s) (isLookbookMode s).

Definition setPhotoStyle (p : string) (s : State) : State :=
  mkState (originalImages s) (modelDescription s) p (aspectRatio s)
          (generatedImages s) (isLoading s) (isEditing s) (editPrompt s)
          (error s) (history s) (faceSourceIndex s) (isLookbookMode s).

Definition setAspectRatio (a : string) (s : State) : State :=
  mkState (originalImages s) (modelDescription s) (photoStyle s) a
          (generatedImages s) (isLoading s) (isEditing s) (editPrompt s)
          (error s) (history s) (faceSourceIndex s) (isLookbookMode s).

Definition setGeneratedImages (f : list ImageState -> list ImageState)
  (s : State) : State :=
  mkState (originalImages s) (modelDescription s) (photoStyle s)
          (aspectRatio s) (f (generatedImages s)) (isLoading s) (isEditing s)
          (editPrompt s) (error s) (history s) (faceSourceIndex s)
          (isLookbookMode s).

Definition setIsLoading (b : bool) (s : State) : State :=
  mkState (originalImages s) (modelDescription s) (photoStyle s)
          (aspectRatio s) (generatedImages s) b (isEditing s) (editPrompt s)
          (error s) (history s) (faceSourceIndex s) (isLookbookMode s).

Definition setIsEditing (b : bool) (s : State) : State :=
  mkState (originalImages s) (modelDescription s) (photoStyle s)
          (aspectRatio s) (generatedImages s) (isLoading s) b (editPrompt s)
          (error s) (history s) (faceSourceIndex s) (isLookbookMode s).

Definition setEditPrompt (p : string) (s : State) : State :=
  mkState (originalImages s) (modelDescription s) (photoStyle s)
          (aspectRatio s) (generatedImages s) (isLoading s) (isEditing s) p
          (error s) (history s) (faceSourceIndex s) (isLookbookMode s).

Definition setError (e : option string) (s : State) : State :=
  mkState (originalImages s) (modelDescription s) (photoStyle s)
          (aspectRatio s) (generatedImages s) (isLoading s) (isEditing s)
          (editPrompt s) e (history s) (faceSourceIndex s) (isLookbookMode s).

Definition setHistory (f : list string -> list string) (s : State) : State :=
  mkState (originalImages s) (modelDescription s) (photoStyle s)
          (aspectRatio s) (generatedImages s) (isLoading s) (isEditing s)
          (editPrompt s) (error s) (f (history s)) (faceSourceIndex s)
          (isLookbookMode s).

Definition setFaceSourceIndex (f : option nat -> option nat) (s : State) : State :=
  mkState (originalImages s) (modelDescription s) (photoStyle s)
          (aspectRatio s) (generatedImages s) (isLoading s) (isEditing s)
          (editPrompt s) (error s) (history s) (f (faceSourceIndex s))
          (isLookbookMode s).

Definition setIsLookbookMode (b : bool) (s : State) : State :=
  mkState (originalImages s) (modelDescription s) (photoStyle s)
          (aspectRatio s) (generatedImages s) (isLoading s) (isEditing s)
          (editPrompt s) (error s) (history s) (faceSourceIndex s) b.

(** How [renderImageItem] tells the slots apart: the marker ['loading'], the
    marker ['error'], any other string (an image), nothing. *)
Inductive SlotState :=
| Empty
| Loading
| Ready (img : string)
| Failed.

Definition slotState (x : ImageState) : SlotState :=
  match x with
  | None => Empty
  | Some s =>
      if s =? "loading" then Loading
      else if s =? "error" then Failed
      else Ready s
  end.

Definition isReadyOrFailed (x : ImageState) : bool :=
  match slotState x with
  | Ready _ | Failed => true
  | Empty | Loading => false
  end.

(** *** The calls into the Gateway

    A call is recorded with its arguments.  For [editImage] the record keeps
    the data URL of the image, from which the handler takes the two
    arguments [base64Data] and [mimeType]. *)
Inductive GatewayCall :=
| CallTryOn (images : list UploadedImage) (prompt : string)
| CallFromText (prompt : string) (ratio : string)
| CallEdit (imageUrl : string) (prompt : string)
           (faceSourceImage : option UploadedImage).

(** The Gateway function behind a call, applied to the completion of its
    external request. *)
Definition gatewayResult (c : GatewayCall) (o : Gateway.ApiOutcome)
  : Gateway.Result :=
  match c with
  | CallTryOn _ _ => Gateway.generateTryOnImage o
  | CallFromText _ _ => Gateway.generateImageFromText o
  | CallEdit _ _ _ => Gateway.editImage o
  end.


(** [originalImages.filter(img => img !== null)] *)
Fixpoint filterNotNull {A} (l : list (option A)) : list A :=
  match l with
  | [] => []
  | Some x :: l' => x :: filterNotNull l'
  | None :: l' => filterNotNull l'
  end.

Definition uploadedImages (s : State) : list UploadedImage :=
  filterNotNull (originalImages s).

(** [`${modelDescription}. Phong cách: ${photoStyle}.`] *)
Definition fullPrompt (s : State) : string :=
  modelDescription s ++ ". Phong cách: " ++ photoStyle s ++ ".".

(** [generateBaseImage]: the call it issues. *)
Definition generateBaseImage (s : State) : GatewayCall :=
  if (0 <? List.length (uploadedImages s))%nat
  then CallTryOn (uploadedImages s) (fullPrompt s)
  else CallFromText (fullPrompt s) (aspectRatio s).

Definition variationPrompt : string :=
  "Giữ nguyên người mẫu, trang phục và phong cách từ ảnh gốc. Chỉ thay đổi tư thế hoặc góc chụp một chút để tạo sự đa dạng. Kết quả phải là một bức ảnh duy nhất.".

(** *** [handleGenerate], cut at its suspension points *)

(** [uploadedImages.length === 0 && !modelDescription] *)
Definition missingInput (s : State) : bool :=
  (List.length (uploadedImages s) =? 0)%nat && (modelDescription s =? "").

Definition missingInputMessage : string :=
  "Vui lòng tải lên ít nhất một ảnh hoặc nhập mô tả.".

(** After the base image arrived: slot 0 and the history. *)
Definition baseFulfilled (baseImage : string) (s : State) : State :=
  setHistory (fun prev => slice0 5 (baseImage :: prev))
    (setGeneratedImages (fun prev => set prev 0 (Some baseImage)) s).

(** The [catch] block. *)
Definition baseRejected (errorMessage : string) (s : State) : State :=
  setGeneratedImages (fun _ => []) (setError (Some errorMessage) s).

(** The [then] and the [catch] callback of variant [i]. *)
Definition variantFulfilled (i : nat) (variationImage : string) (s : State)
  : State :=
  setGeneratedImages (fun prev => set prev i (Some variationImage)) s.

Definition variantRejected (i : nat) (s : State) : State :=
  setGeneratedImages (fun prev => set prev i errorMark) s.

(** The [finally] block. *)
Definition generateFinally (s : State) : State := setIsLoading false s.

(** Where one invocation of [handleGenerate] stands: it awaits the base
    image (with the [isLookbookMode] its closure captured), it awaits
    [Promise.all] of the variants still pending, or it has returned. *)
Inductive Phase :=
| AwaitBase (call : GatewayCall) (lookbook : bool)
| AwaitVariants (pending : list nat)
| Settled.

(** An invocation: the component state, the phase, and the Gateway calls the
    invocation has issued so far, oldest first. *)
Record Machine := mkMachine {
  app : State;
  phase : Phase;
  calls : list GatewayCall
}.

(** The synchronous part of [handleGenerate], up to the first [await]. *)
Definition handleGenerate (s : State) : Machine :=
  let s := setError None s in
  if missingInput s
  then mkMachine (setError (Some missingInputMessage) s) Settled []
  else
    let s1 := setIsLoading true s in
    let s2 := setGeneratedImages
                (fun _ => if isLookbookMode s then fill 4 loading else [loading])
                s1 in
    mkMachine s2 (AwaitBase (generateBaseImage s) (isLookbookMode s))
              [generateBaseImage s].

(** Completions of the promises the invocation awaits. *)
Inductive Event :=
| BaseSettled (o : Gateway.ApiOutcome)
| VariantSettled (i : nat) (o : Gateway.ApiOutcome).

Definition isPending (i : nat) (pending : list nat) : bool :=
  existsb (Nat.eqb i) pending.

Definition without (i : nat) (pending : list nat) : list nat :=
  filter (fun j => negb (j =? i)%nat) pending.

(** One completion.  [None]: the invocation awaits no such promise.

    When the base image arrives in lookbook mode the three [editImage] calls
    of [[1, 2, 3].map] are issued at once.  The continuation of
    [await Promise.all] runs in the job that follows the last variant
    callback, so [finally] is part of that step. *)
Definition step (m : Machine) (ev : Event) : option Machine :=
  match phase m, ev with
  | AwaitBase call lookbook, BaseSettled o =>
      match gatewayResult call o with
      | Return baseImage =>
          let s1 := baseFulfilled baseImage (app m) in
          if lookbook
          then Some (mkMachine s1 (AwaitVariants [1; 2; 3])
                       (calls m ++
                        map (fun _ : nat => CallEdit baseImage variationPrompt None)
                            [1; 2; 3]))
          else Some (mkMachine (generateFinally s1) Settled (calls m))
      | Throw err =>
          Some (mkMachine
                  (generateFinally (baseRejected (Gateway.message err) (app m)))
                  Settled (calls m))
      end
  | AwaitVariants pending, VariantSettled i o =>
      if isPending i pending then
        let s1 := match Gateway.editImage o with
                  | Return variationImage => variantFulfilled i variationImage (app m)
                  | Throw _ => variantRejected i (app m)
                  end in
        match without i pending with
        | [] => Some (mkMachine (generateFinally s1) Settled (calls m))
        | rest => Some (mkMachine s1 (AwaitVariants rest) (calls m))
        end
      else None
  | _, _ => None
  end.

Fixpoint run (m : Machine) (evs : list Event) : option Machine :=
  match evs with
  | [] => Some m
  | ev :: evs' =>
      match step m ev with
      | Some m' => run m' evs'
      | None => None
      end
  end.

(** The number of variants an invocation asks for: three in lookbook mode
    ([Array(4).fill('loading')], [[1, 2, 3].map]), none otherwise. *)
Definition variantCount (s : State) : nat :=
  if isLookbookMode s then 3 else 0.

(** The slot a variant ends in, given the completion of its request. *)
Definition variantSlot (o : Gateway.ApiOutcome) : ImageState :=
  match Gateway.editImage o with
  | Return variationImage => Some variationImage
  | Throw _ => errorMark
  end.

(** *** [handleEdit] *)

(** [generatedImages.length > 0 && typeof generatedImages[0] === 'string'
    ? generatedImages[0] : null] *)
Definition imageToEdit (s : State) : option string :=
  match generatedImages s with
  | Some img :: _ => Some img
  | _ => None
  end.

(** [faceSourceIndex !== null ? originalImages[faceSourceIndex] : null] *)
Definition faceSourceImage (s : State) : option UploadedImage :=
  match faceSourceIndex s with
  | Some i => get (originalImages s) i
  | None => None
  end.

(** The synchronous part: the guard, then the call.  [None]: the handler
    returned at the guard. *)
Definition handleEdit (s : State) : State * option GatewayCall :=
  if negb (truthy (imageToEdit s)) || (editPrompt s =? "")
  then (s, None)
  else (setIsEditing true (setError None s),
        Some (CallEdit (str (imageToEdit s)) (editPrompt s) (faceSourceImage s))).

Definition editFulfilled (resultImage : string) (s : State) : State :=
  setEditPrompt ""
    (setHistory (fun prev => slice0 5 (resultImage :: prev))
       (setGeneratedImages (fun _ => [Some resultImage]) s)).

Definition editRejected (errorMessage : string) (s : State) : State :=
  setError (Some errorMessage) s.

Definition editFinally (s : State) : State := setIsEditing false s.

(** The rest of [handleEdit], once the awaited [editImage] completes. *)
Definition editSettled (o : Gateway.ApiOutcome) (s : State) : State :=
  match Gateway.editImage o with
  | Return resultImage => editFinally (editFulfilled resultImage s)
  | Throw err => editFinally (editRejected (Gateway.message err) s)
  end.

(** A whole edit: the handler runs, and if it issued its call, the call
    completes with [o]. *)
Definition edit (o : Gateway.ApiOutcome) (s : State) : State :=
  match handleEdit s with
  | (s', Some _) => editSettled o s'
  | (s', None) => s'
  end.

(** *** The other handlers that write the same state *)

Definition handleReset (s : State) : State :=
  setFaceSourceIndex (fun _ => None)
    (setError None
       (setGeneratedImages (fun _ => [])
          (setAspectRatio INITIAL_ASPECT_RATIO
             (setPhotoStyle INITIAL_PHOTO_STYLE
                (setModelDescription ""
                   (setOriginalImages (fun _ => fill MAX_IMAGES None) s)))))).

(** Click on entry [k] of the history strip. *)
Definition historyClick (k : nat) (s : State) : State :=
  match nth_error (history s) k with
  | Some imgSrc =>
      setIsLookbookMode false (setGeneratedImages (fun _ => [Some imgSrc]) s)
  | None => s
  end.

Definition handleImageUpload (index : nat) (img : UploadedImage) (s : State)
  : State :=
  setOriginalImages (fun prev => set prev index (Some img)) s.

Definition handleImageDelete (index : nat) (s : State) : State :=
  let s1 := setOriginalImages (fun prev => set prev index None) s in
  if match faceSourceIndex s with
     | Some i => (i =? index)%nat
     | None => false
     end
  then setFaceSourceIndex (fun _ => None) s1
  else s1.

Definition handleSetFaceSource (index : nat) (s : State) : State :=
  setFaceSourceIndex
    (fun prevIndex =>
       match prevIndex with
       | Some i => if (i =? index)%nat then None else Some index
       | None => Some index
       end) s.

(** The pieces of code that run without suspension, in any order the user
    and the network produce them. *)
Inductive Segment :=
| SegGenerateStart
| SegBaseFulfilled (baseImage : string)
| SegBaseRejected (errorMessage : string)
| SegVariantFulfilled (i : nat) (variationImage : string)
| SegVariantRejected (i : nat)
| SegGenerateFinally
| SegEditStart
| SegEditFulfilled (resultImage : string)
| SegEditRejected (errorMessage : string)
| SegEditFinally
| SegReset
| SegHistoryClick (k : nat)
| SegImageUpload (index : nat) (img : UploadedImage)
| SegImageDelete (index : nat)
| SegSetFaceSource (index : nat)
| SegSetModelDescription (d : string)
| SegSetPhotoStyle (p : string)
| SegSetAspectRatio (a : string)
| SegSetEditPrompt (p : string)
| SegSetIsLookbookMode (b : bool).

Definition exec (s : State) (g : Segment) : State :=
  match g with
  | SegGenerateStart => app (handleGenerate s)
  | SegBaseFulfilled baseImage => baseFulfilled baseImage s
  | SegBaseRejected errorMessage => baseRejected errorMessage s
  | SegVariantFulfilled i variationImage => variantFulfilled i variationImage s
  | SegVariantRejected i => variantRejected i s
  | SegGenerateFinally => generateFinally s
  | SegEditStart => fst (handleEdit s)
  | SegEditFulfilled resultImage => editFulfilled resultImage s
  | SegEditRejected errorMessage => editRejected errorMessage s
  | SegEditFinally => editFinally s
  | SegReset => handleReset s
  | SegHistoryClick k => historyClick k s
  | SegImageUpload index img => handleImageUpload index img s
  | SegImageDelete index => handleImageDelete index s
  | SegSetFaceSource index => handleSetFaceSource index s
  | SegSetModelDescription d => setModelDescription d s
  | SegSetPhotoStyle p => setPhotoStyle p s
  | SegSetAspectRatio a => setAspectRatio a s
  | SegSetEditPrompt p => setEditPrompt p s
  | SegSetIsLookbookMode b => setIsLookbookMode b s
  end.

Definition execAll (gs : list Segment) (s : State) : State :=
  fold_left exec gs s.

(** The results that successful base generations and successful edits
    produced, oldest first. *)
Fixpoint produced (gs : list Segment) : list string :=
  match gs with
  | [] => []
  | SegBaseFulfilled baseImage :: gs' => baseImage :: produced gs'
  | SegEditFulfilled resultImage :: gs' => resultImage :: produced gs'
  | _ :: gs' => produced gs'
  end.

(** *** An invocation of [handleGenerate] among the other handlers *)

(** The segments of the other handlers.  While an invocation runs
    [isLoading] is set, which disables the generate button, the only caller
    of [handleGenerate]: no second invocation starts.  Every other handler
    stays available. *)
Definition foreign (g : Segment) : bool :=
  match g with
  | SegGenerateStart | SegBaseFulfilled _ | SegBaseRejected _
  | SegVariantFulfilled _ _ | SegVariantRejected _ | SegGenerateFinally =>
      false
  | _ => true
  end.


(** What happens while an invocation runs: one of its promises completes, or
    a segment of another handler runs on the same state. *)
Inductive Action :=
| Completes (ev : Event)
| Meanwhile (g : Segment).

Definition act (m : Machine) (a : Action) : option Machine :=
  match a with
  | Completes ev => step m ev
  | Meanwhile g =>
      if foreign g
      then Some (mkMachine (exec (app m) g) (phase m) (calls m))
      else None
  end.

Fixpoint runWith (m : Machine) (acts : list Action) : option Machine :=
  match acts with
  | [] => Some m
  | a :: acts' =>
      match act m a with
      | Some m' => runWith m' acts'
      | None => None
      end
  end.




End App.

(** ** Live Session Orchestrator: audio playback of [onmessage] ([LiveChat]) *)

Module LiveChat.

(** The numbers of the playback clock ([currentTime], [duration],
    [nextStartTimeRef.current]) with the two operations the callback uses on
    them: the comparison behind [Math.max] and the addition of [+=]. *)
Record Numbers := mkNumbers {
  num : Type;
  leb : num -> num -> bool;
  add : num -> num -> num;
  zero : num
}.

(** What the statements below need from the numbers: the order is total and
    transitive, and adding a duration that is not negative does not go
    back. *)
Record NumberLaws (K : Numbers) : Prop := mkNumberLaws {
  leb_total : forall a b : num K, leb K a b = true \/ leb K b a = true;
  leb_trans : forall a b c : num K,
      leb K a b = true -> leb K b c = true -> leb K a c = true;
  add_duration : forall x d : num K,
      leb K (zero K) d = true -> leb K x (add K x d) = true
}.

(** Seconds as rational numbers. *)
Definition rationalSeconds : Numbers := mkNumbers Qle_bool Qplus (0 # 1)%Q.

Section Playback.

Variable K : Numbers.

Definition Math_max (a b : num K) : num K :=
  if leb K a b then b else a.

(** The [AudioBuffer] that [decodeAudioData] resolves to. *)
Record AudioBuffer := mkAudioBuffer {
  duration : num K
}.

(** One [source.start(when)] with the duration of the buffer it plays. *)
Record Playback := mkPlayback {
  startTime : num K;
  playDuration : num K
}.

(** [nextStartTimeRef.current], the chunks whose [decodeAudioData] is still
    awaited (oldest first), and the [source.start] calls made so far (newest
    first). *)
Record Session := mkSession {
  nextStartTime : num K;
  awaited : list AudioBuffer;
  started : list Playback
}.

(** [useRef(0)], nothing awaited, nothing started. *)
Definition initialSession : Session := mkSession (zero K) [] [].

(** An inbound message, as far as the audio branch reads it: the output
    context clock, the audio chunk it carries if any (given as the buffer it
    decodes to), and whether [outputAudioContextRef.current] is set. *)
Record ServerMessage := mkServerMessage {
  currentTime : num K;
  audio : option AudioBuffer;
  hasOutputContext : bool
}.

(** [onmessage] up to [await decodeAudioData(...)]. *)
Definition onmessage (msg : ServerMessage) (s : Session) : Session :=
  match audio msg with
  | Some buffer =>
      if hasOutputContext msg
      then mkSession (Math_max (nextStartTime s) (currentTime msg))
                     (awaited s ++ [buffer]) (started s)
      else s
  | None => s
  end.

(** [onmessage] after the [await]: [source.start(nextStartTimeRef.current)]
    and [nextStartTimeRef.current += audioBuffer.duration].  [None]: no
    decoding is awaited. *)
Definition afterDecode (s : Session) : option Session :=
  match awaited s with
  | buffer :: rest =>
      Some (mkSession (add K (nextStartTime s) (duration buffer)) rest
                      (mkPlayback (nextStartTime s) (duration buffer) :: started s))
  | [] => None
  end.

(** The jobs of a session: a message arrives, or the oldest awaited decoding
    resolves ([decodeAudioData] is a pure helper, so the continuations run in
    the order of the calls). *)
Inductive Job :=
| MessageArrives (msg : ServerMessage)
| DecodeResolves.

Definition job (s : Session) (j : Job) : option Session :=
  match j with
  | MessageArrives msg => Some (onmessage msg s)
  | DecodeResolves => afterDecode s
  end.

Fixpoint jobs (s : Session) (js : list Job) : option Session :=
  match js with
  | [] => Some s
  | j :: js' =>
      match job s j with
      | Some s' => jobs s' js'
      | None => None
      end
  end.

(** The [source.start] calls in the order they were made. *)
Definition schedule (s : Session) : list Playback := rev (started s).

(** The audio chunks of the messages that entered the audio branch, in
    arrival order. *)
Fixpoint arrivals (js : list Job) : list AudioBuffer :=
  match js with
  | [] => []
  | MessageArrives msg :: js' =>
      match audio msg with
      | Some buffer =>
          if hasOutputContext msg then buffer :: arrivals js' else arrivals js'
      | None => arrivals js'
      end
  | DecodeResolves :: js' => arrivals js'
  end.

(** Every chunk the jobs carry has a duration that is not negative. *)
Fixpoint durationsNonNegative (js : list Job) : bool :=
  match js with
  | [] => true
  | MessageArrives msg :: js' =>
      match audio msg with
      | Some buffer => leb K (zero K) (duration buffer)
      | None => true
      end && durationsNonNegative js'
  | DecodeResolves :: js' => durationsNonNegative js'
  end.

(** Each message handled to its end before the next one arrives. *)
Fixpoint oneByOne (msgs : list ServerMessage) : list Job :=
  match msgs with
  | [] => []
  | msg :: msgs' =>
      match audio msg with
      | Some _ =>
          if hasOutputContext msg
          then MessageArrives msg :: DecodeResolves :: oneByOne msgs'
          else MessageArrives msg :: oneByOne msgs'
      | None => MessageArrives msg :: oneByOne msgs'
      end
  end.

(** The duration of a buffer is not negative. *)
Definition nonNegative (b : AudioBuffer) : Prop :=
  leb K (zero K) (duration b) = true.

(** [b] starts no earlier than [a] ends. *)
Definition startsAfter (a b : Playback) : Prop :=
  leb K (add K (startTime a) (playDuration a)) (startTime b) = true.

(** The watermark is past the end of every playback started so far, and each
    playback starts after the older ones end ([started] is newest first). *)
Definition watermarkInvariant (s : Session) : Prop :=
  Forall (fun a => leb K (add K (startTime a) (playDuration a)) (nextStartTime s) = true)
         (started s) /\
  ForallOrdPairs (fun b a => startsAfter a b) (started s).

End Playback.

(** Two chunks of half a second and a quarter of a second; the second
    arrives while the clock still shows a tenth of a second. *)
Definition twoChunks : list (Job rationalSeconds) :=
  [MessageArrives
     (@mkServerMessage rationalSeconds (1 # 10)%Q
        (Some (mkAudioBuffer rationalSeconds (1 # 2)%Q)) true);
   DecodeResolves rationalSeconds;
   MessageArrives
     (@mkServerMessage rationalSeconds (1 # 10)%Q
        (Some (mkAudioBuffer rationalSeconds (1 # 4)%Q)) true);
   DecodeResolves rationalSeconds].

End LiveChat.

(** *** Invariants of one [handleGenerate] invocation *)

Module AppInvariants.

Import JS App.

(** Variant slot [i] while the variants in [pending] are awaited: still
    loading if [i] is pending, ready or failed if it is not. *)
Definition variantSlotInv (pending : list nat) (i : nat) (x : ImageState)
  : Prop :=
  (In i pending -> x = loading) /\
  (~ In i pending -> isReadyOrFailed x = true).

(** The invocation after its base image [baseImage] arrived. *)
Definition afterBase (baseImage : string) (lookbook : bool) (m : Machine)
  : Prop :=
  error (app m) = None /\
  match phase m with
  | AwaitBase _ _ => False
  | AwaitVariants pending =>
      lookbook = true /\
      isLoading (app m) = true /\
      pending <> [] /\
      NoDup pending /\
      (forall i, In i pending -> In i [1; 2; 3]) /\
      exists x1 x2 x3,
        generatedImages (app m) = [Some baseImage; x1; x2; x3] /\
        variantSlotInv pending 1 x1 /\
        variantSlotInv pending 2 x2 /\
        variantSlotInv pending 3 x3
  | Settled =>
      isLoading (app m) = false /\
      exists xs,
        generatedImages (app m) = Some baseImage :: xs /\
        List.length xs = (if lookbook then 3 else 0) /\
        forallb isReadyOrFailed xs = true
  end.



(** The promises an invocation still awaits. *)
Definition outstanding (m : Machine) : nat :=
  match phase m with
  | AwaitBase _ _ => 1
  | AwaitVariants pending => List.length pending
  | Settled => 0
  end.

(** [isLoading] is set exactly while the invocation awaits something. *)
Definition joinInvariant (m : Machine) : Prop :=
  match phase m with
  | Settled => isLoading (app m) = false
  | _ => isLoading (app m) = true
  end.

(** The completions of the variants in the order [order], variant [i]
    completing with [outcomes i]. *)
Definition variantsSettle (order : list nat)
  (outcomes : nat -> Gateway.ApiOutcome) : list Event :=
  map (fun i => VariantSettled i (outcomes i)) order.

(** A data URL: a string that starts with [data:]. *)
Definition isDataUrl (u : string) : bool := String.prefix "data:" u.



(** Example states. *)
Definition describedOnly : State :=
  setModelDescription "red dress" initialState.

Definition pngImage : string := "data:image/png;base64,QUJD".

Definition oneImageNoPrompt : State :=
  setGeneratedImages (fun _ => [Some pngImage]) initialState.

Definition fourImagesWithPrompt : State :=
  setEditPrompt "add a hat"
    (setGeneratedImages
       (fun _ => [Some pngImage; Some pngImage; Some pngImage; Some pngImage])
       initialState).

(** A response whose first candidate carries the image [QUJD] as PNG. *)
Definition pngResponse : Gateway.Response :=
  Gateway.mkResponse None
    (Some [Gateway.mkCandidate (Some "STOP") None
             (Some (Gateway.mkContent
                      (Some [Gateway.mkPart
                               (Some (Gateway.mkInlineData (Some "QUJD") (Some "image/png")))
                               None])))])
    None.

(** One uploaded image, no description, lookbook mode. *)
Definition oneUploadLookbook : State :=
  setIsLookbookMode true
    (setModelDescription ""
       (handleImageUpload 0 (mkUploadedImage "QUJD" "image/png") initialState)).

(** Variant 2 fails, the other variants succeed. *)
Definition secondVariantFails (i : nat) : Gateway.ApiOutcome :=
  if (i =? 2)%nat then Gateway.ApiThrewError "503"
  else Gateway.ApiReturned pngResponse.


(** The same completions with a reset after the first of them. *)
Definition resetLookbook : list Action :=
  [Completes (BaseSettled (Gateway.ApiReturned pngResponse));
   Completes (VariantSettled 3 (secondVariantFails 3));
   Meanwhile SegReset;
   Completes (VariantSettled 1 (secondVariantFails 1));
   Completes (VariantSettled 2 (secondVariantFails 2))].

End AppInvariants.

(** ** The requests the Gateway sends ([services/geminiService]) *)

Module Request.

Import JS.

Definition newline : string := String (ascii_of_nat 10) EmptyString.

(** A part of [contents.parts]. *)
Inductive Part :=
| InlineDataPart (data : option string) (mimeType : string)
| TextPart (text : string).

(** The argument of [ai.models.generateImages] or of
    [ai.models.generateContent]. *)
Inductive Request :=
| GenerateImages (model prompt : string) (numberOfImages : nat)
                 (outputMimeType aspectRatio : string)
| GenerateContent (model : string) (parts : list Part)
                  (responseModalities : list string).

(** [enhancedPrompt] of [generateImageFromText]. *)
Definition textPrompt (prompt : string) : string :=
  "**Yêu cầu:** Tạo một bức ảnh lookbook thời trang chuyên nghiệp, chất lượng cao, siêu thực." ++ newline ++
  "**Mô tả chi tiết từ người dùng:** " ++ prompt ++ newline ++
  "**Lưu ý quan trọng:** Bức ảnh phải sắc nét, có bố cục tốt và trông giống như được chụp bởi một nhiếp ảnh gia chuyên nghiệp.".

Definition generateImageFromText (prompt aspectRatio : string) : Request :=
  GenerateImages "imagen-4.0-generate-001" (textPrompt prompt) 1 "image/jpeg"
                 aspectRatio.

(** [enhancedPrompt] of [generateTryOnImage]. *)
Definition tryOnPrompt (prompt : string) : string :=
  "**Yêu cầu:** Tạo một bức ảnh lookbook thời trang hoàn chỉnh." ++ newline ++
  "**Nhiệm vụ:** Sử dụng các sản phẩm quần áo từ (các) hình ảnh được cung cấp và mặc chúng cho người mẫu được mô tả dưới đây." ++ newline ++
  "**Mô tả chi tiết từ người dùng:** " ++ prompt ++ newline ++
  "**Lưu ý quan trọng:** Kết quả cuối cùng phải là MỘT bức ảnh duy nhất, chất lượng cao, trông chuyên nghiệp và chân thực. Không tạo lưới ảnh hoặc trả về văn bản.".

(** [images.map(image => ({ inlineData: ... }))] *)
Definition imageParts (images : list App.UploadedImage) : list Part :=
  map (fun image => InlineDataPart (Some (App.base64 image)) (App.mimeType image))
      images.

Definition generateTryOnImage (images : list App.UploadedImage) (prompt : string)
  : Request :=
  GenerateContent "gemini-2.5-flash"
                  (imageParts images ++ [TextPart (tryOnPrompt prompt)])
                  ["IMAGE"].

(** The instruction appended to the prompt when a face source is given. *)
Definition faceInstruction : string :=
  ". Quan trọng: hãy thay thế khuôn mặt của người mẫu trong ảnh đầu tiên bằng khuôn mặt từ ảnh thứ hai. Giữ nguyên phần còn lại của ảnh đầu tiên. Hãy làm cho nó trông tự nhiên và chân thực.".

(** [parts] of [editImage]: the image, the face source if there is one, the
    text. *)
Definition editParts (base64Image : option string) (mimeType prompt : string)
  (faceSourceImage : option App.UploadedImage) : list Part :=
  match faceSourceImage with
  | Some face =>
      [InlineDataPart base64Image mimeType;
       InlineDataPart (Some (App.base64 face)) (App.mimeType face);
       TextPart (prompt ++ faceInstruction)]
  | None =>
      [InlineDataPart base64Image mimeType; TextPart prompt]
  end.

Definition editImage (base64Image : option string) (mimeType prompt : string)
  (faceSourceImage : option App.UploadedImage) : Request :=
  GenerateContent "gemini-2.5-flash"
                  (editParts base64Image mimeType prompt faceSourceImage)
                  ["IMAGE"].

(** The request behind a call of the orchestrator.  For an edit the handlers
    pass [baseImage.split(',')[1]] and the MIME type matched in the data
    URL. *)
Definition ofCall (c : App.GatewayCall) : Request :=
  match c with
  | App.CallTryOn images prompt => generateTryOnImage images prompt
  | App.CallFromText prompt ratio => generateImageFromText prompt ratio
  | App.CallEdit imageUrl prompt faceSourceImage =>
      editImage (DataUrl.base64Data imageUrl) (DataUrl.mimeType imageUrl)
                prompt faceSourceImage
  end.

(** The image parts and the text parts of a request. *)
Definition inlineParts (r : Request) : list Part :=
  match r with
  | GenerateContent _ ps _ =>
      filter (fun p => match p with InlineDataPart _ _ => true | TextPart _ => false end) ps
  | GenerateImages _ _ _ _ _ => []
  end.

Definition textOf (r : Request) : list string :=
  match r with
  | GenerateContent _ ps _ =>
      flat_map (fun p => match p with TextPart t => [t] | InlineDataPart _ _ => [] end) ps
  | GenerateImages _ prompt _ _ _ => [prompt]
  end.

(** The number of occupied slots among the first [i]. *)
Definition occupiedBefore {A} (i : nat) (l : list (option A)) : nat :=
  List.length (App.filterNotNull (firstn i l)).

End Request.

(** ** More of [App.tsx]: the description effect, the rendering of a slot,
    what the upload tiles offer *)

Module AppMore.

Import JS App.

(** [originalImages.some(img => img !== null)] *)
Definition hasImages (s : State) : bool :=
  existsb (fun img : option UploadedImage =>
             match img with Some _ => true | None => false end)
          (originalImages s).

(** The effect on [hasImages] and [modelDescription]. *)
Definition syncDescription (s : State) : State :=
  if negb (hasImages s) && (modelDescription s =? INITIAL_MODEL_DESCRIPTION)
  then setModelDescription "" s
  else if hasImages s && (modelDescription s =? "")
       then setModelDescription INITIAL_MODEL_DESCRIPTION s
       else s.

(** What [renderImageItem] puts into a slot. *)
Inductive Element :=
| SkeletonLoader
| ErrorDisplay (message : string)
| ImageWithControls (src : string) (index : nat).

(** The three [cond && element] lines of [renderImageItem]. *)
Definition renderImageItem (img : ImageState) (index : nat) : list Element :=
  (match img with
   | Some s => if s =? "loading" then [SkeletonLoader] else []
   | None => []
   end ++
   match img with
   | Some s => if s =? "error" then [ErrorDisplay "Lỗi tạo ảnh"] else []
   | None => []
   end ++
   match img with
   | Some s => [ImageWithControls s index]
   | None => []
   end)%list.

Definition isImageElement (e : Element) : bool :=
  match e with
  | ImageWithControls _ _ => true
  | _ => false
  end.

(** Tile [i] holds an image. *)
Definition slotOccupied (s : State) (i : nat) : bool :=
  match get (originalImages s) i with
  | Some _ => true
  | None => false
  end.

(** What the upload tiles offer.  There is one tile per entry of
    [originalImages]; a tile shows its delete and face-source buttons only
    while it shows a preview, and it shows a preview only while its entry
    holds an image (a successful upload sets both, the delete button clears
    both, the reset clears the entries and mounts the tiles anew). *)
Definition offered (s : State) (g : Segment) : bool :=
  match g with
  | SegImageUpload i _ => (i <? List.length (originalImages s))%nat
  | SegImageDelete i => slotOccupied s i
  | SegSetFaceSource i => slotOccupied s i
  | _ => true
  end.

Fixpoint execOffered (gs : list Segment) (s : State) : option State :=
  match gs with
  | [] => Some s
  | g :: gs' => if offered s g then execOffered gs' (exec s g) else None
  end.

(** The face source points at an image, if it is set. *)
Definition faceSourceValid (s : State) : Prop :=
  forall i, faceSourceIndex s = Some i -> slotOccupied s i = true.

(** The reset button pressed while an invocation of [handleGenerate] is
    under way. *)
Definition resetDuring (m : Machine) : Machine :=
  mkMachine (handleReset (app m)) (phase m) (calls m).

(** The tiles offer a few uploads, a face source and a delete. *)
Definition tileSession : list Segment :=
  [SegImageUpload 0 (mkUploadedImage "QUJD" "image/png");
   SegImageUpload 3 (mkUploadedImage "REVG" "image/jpeg");
   SegSetFaceSource 3;
   SegImageDelete 0].

(** A lookbook invocation whose base image arrived. *)
Definition lookbookAfterBase : Machine :=
  match step (handleGenerate AppInvariants.oneUploadLookbook)
             (BaseSettled (Gateway.ApiReturned AppInvariants.pngResponse)) with
  | Some m => m
  | None => handleGenerate AppInvariants.oneUploadLookbook
  end.

(** A state with an image in tile 2 only. *)
Definition secondTileOnly : State :=
  handleImageUpload 1 (mkUploadedImage "QUJD" "image/png") initialState.

End AppMore.

(** ** Dictation into a text field ([onresult] of the speech recognition) *)

Module Speech.

(** [event.results[i]]: its [isFinal] flag and the transcript of its first
    alternative. *)
Record SpeechRecognitionResult := mkResult {
  isFinal : bool;
  transcript : string
}.

(** The body of the [for] loop, over the results from [resultIndex] on. *)
Fixpoint collect (results : list SpeechRecognitionResult)
  (interimTranscript finalTranscript : string) : string * string :=
  match results with
  | [] => (interimTranscript, finalTranscript)
  | r :: results' =>
      if isFinal r
      then collect results' interimTranscript (finalTranscript ++ transcript r)
      else collect results' (interimTranscript ++ transcript r) finalTranscript
  end.

(** [onresult]: the new value of the text field. *)
Definition onresult (textBeforeRecording : string)
  (results : list SpeechRecognitionResult) (resultIndex : nat) : string :=
  let (interimTranscript, finalTranscript) :=
    collect (skipn resultIndex results) "" "" in
  textBeforeRecording ++ finalTranscript ++ interimTranscript.

(** The transcripts of the results that satisfy [keep], joined. *)
Definition joined (keep : SpeechRecognitionResult -> bool)
  (results : list SpeechRecognitionResult) : string :=
  fold_right String.append "" (map transcript (filter keep results)).

Definition isInterim (r : SpeechRecognitionResult) : bool := negb (isFinal r).

End Speech.

(** ** The chat ([getChatResponseStream] and [handleSendMessage] of the
    chatbot) *)

Module Chatbot.

Import JS.

(** [ChatMessage]: a role and the texts of its parts. *)
Record ChatMessage := mkChatMessage {
  role : string;
  parts : list string
}.

(** A geographic position. *)
Record Location := mkLocation {
  latitude : Q;
  longitude : Q
}.

(** The argument of [ai.models.generateContentStream]: [tools] and
    [toolConfig] are present only with a location. *)
Record ChatRequest := mkChatRequest {
  model : string;
  contents : list ChatMessage;
  systemInstruction : string;
  tools : option (list string);
  latLng : option Location
}.

Definition stylistInstruction : string :=
  "You are a friendly and helpful AI fashion stylist assistant. Your name is Stylist AI. Provide concise and useful advice on fashion, style, and using this application. You can also find nearby fashion stores if the user asks for them. Keep your answers short and to the point. Respond in Vietnamese.".

Definition getChatResponseStream (history : list ChatMessage)
  (newMessage : string) (location : option Location) : ChatRequest :=
  mkChatRequest "gemini-2.5-flash"
    (history ++ [mkChatMessage "user" [newMessage]])
    stylistInstruction
    (match location with Some _ => Some ["googleMaps"] | None => None end)
    location.

Inductive Sender := user | ai.

(** A grounding chunk, by its link. *)
Definition GroundingChunk := string.

Record Message := mkMessage {
  sender : Sender;
  text : string;
  groundingChunks : option (list GroundingChunk)
}.

Record State := mkState {
  messages : list Message;
  input : string;
  isStreaming : bool;
  error : option string;
  location : option Location
}.

(** A chunk of the stream: [chunk.text] and the grounding chunks of its
    first candidate. *)
Record StreamChunk := mkStreamChunk {
  chunkText : option string;
  chunkGrounding : option (list GroundingChunk)
}.

(** What is thrown: an [Error] with its message, or something else. *)
Inductive Thrown :=
| ThrownError (message : string)
| ThrownOther.

(** How the request goes: the call rejects, the stream ends after its
    chunks, or the iteration throws after some chunks. *)
Inductive StreamOutcome :=
| CallRejected (t : Thrown)
| StreamEnded (chunks : list StreamChunk)
| StreamFailed (chunks : list StreamChunk) (t : Thrown).

(** White space of [String.prototype.trim], in UTF-8 bytes: the one-byte
    characters, U+00A0, and the three-byte characters (U+1680, U+2000 to
    U+200A, U+2028, U+2029, U+202F, U+205F, U+3000, U+FEFF). *)
Definition whiteSpace1 (a : nat) : bool :=
  ((a =? 9) || (a =? 10) || (a =? 11) || (a =? 12) || (a =? 13) || (a =? 32))%nat.

Definition whiteSpace2 (a b : nat) : bool := ((a =? 194) && (b =? 160))%nat.

Definition whiteSpace3 (a b c : nat) : bool :=
  (((a =? 225) && (b =? 154) && (c =? 128)) ||
   ((a =? 226) && (b =? 128) &&
    (((128 <=? c) && (c <=? 138)) || (c =? 168) || (c =? 169) || (c =? 175))) ||
   ((a =? 226) && (b =? 129) && (c =? 159)) ||
   ((a =? 227) && (b =? 128) && (c =? 128)) ||
   ((a =? 239) && (b =? 187) && (c =? 191)))%nat.

(** [!input.trim()]: the input consists of white space only. *)
Fixpoint blank (s : string) : bool :=
  match s with
  | EmptyString => true
  | String a s1 =>
      if whiteSpace1 (nat_of_ascii a) then blank s1
      else
        match s1 with
        | EmptyString => false
        | String b s2 =>
            if whiteSpace2 (nat_of_ascii a) (nat_of_ascii b) then blank s2
            else
              match s2 with
              | EmptyString => false
              | String c s3 =>
                  if whiteSpace3 (nat_of_ascii a) (nat_of_ascii b) (nat_of_ascii c)
                  then blank s3
                  else false
              end
        end
  end.

(** [messages.map(msg => ({ role: ..., parts: [{ text: msg.text }] }))] *)
Definition toChatMessage (msg : Message) : ChatMessage :=
  mkChatMessage
    (match sender msg with user => "user" | ai => "model" end)
    [text msg].

(** [newMessages[newMessages.length - 1] = f(...)] on a copy.  The list holds
    the message just appended, so it is not empty where this is used. *)
Fixpoint updateLast (f : Message -> Message) (l : list Message) : list Message :=
  match l with
  | [] => []
  | [m] => [f m]
  | m :: l' => m :: updateLast f l'
  end.

Definition setText (t : string) (m : Message) : Message :=
  mkMessage (sender m) t (groundingChunks m).

Definition setGroundingChunks (g : list GroundingChunk) (m : Message) : Message :=
  mkMessage (sender m) (text m) (Some g).

(** The [for await] loop: the text so far, the grounding chunks so far, the
    messages. *)
Fixpoint consume (chunks : list StreamChunk) (aiResponseText : string)
  (grounding : list GroundingChunk) (msgs : list Message)
  : string * list GroundingChunk * list Message :=
  match chunks with
  | [] => (aiResponseText, grounding, msgs)
  | chunk :: chunks' =>
      let aiResponseText' :=
        if truthy (chunkText chunk)
        then aiResponseText ++ str (chunkText chunk)
        else aiResponseText in
      let msgs' :=
        if truthy (chunkText chunk)
        then updateLast (setText aiResponseText') msgs
        else msgs in
      let grounding' :=
        match chunkGrounding chunk with
        | Some chunks => (grounding ++ chunks)%list
        | None => grounding
        end in
      consume chunks' aiResponseText' grounding' msgs'
  end.

Definition errorMessageOf (t : Thrown) : string :=
  match t with
  | ThrownError message => message
  | ThrownOther => "Đã xảy ra lỗi không xác định."
  end.

(** The [catch] block and [finally]. *)
Definition failed (t : Thrown) (msgs : list Message) (s : State) : State :=
  mkState
    (msgs ++ [mkMessage ai ("Xin lỗi, đã có lỗi xảy ra: " ++ errorMessageOf t) None])
    "" false (Some (errorMessageOf t)) (location s).

(** [handleSendMessage]: the state it leaves and the request it sent, if it
    passed its guard. *)
Definition handleSendMessage (s : State) (o : StreamOutcome)
  : State * option ChatRequest :=
  if blank (input s) || isStreaming s then (s, None)
  else
    let request :=
      getChatResponseStream (map toChatMessage (messages s)) (input s)
                            (location s) in
    let sent := (messages s ++ [mkMessage user (input s) None])%list in
    let streaming := (sent ++ [mkMessage ai "" None])%list in
    (match o with
     | CallRejected t => failed t sent s
     | StreamEnded chunks =>
         let '(_, grounding, msgs) := consume chunks "" [] streaming in
         mkState (updateLast (setGroundingChunks grounding) msgs)
                 "" false None (location s)
     | StreamFailed chunks t =>
         let '(_, _, msgs) := consume chunks "" [] streaming in
         failed t msgs s
     end, Some request).

(** The text of the chunks that carry one, joined. *)
Definition answerText (chunks : list StreamChunk) : string :=
  fold_right String.append ""
             (map (fun c => str (chunkText c))
                  (filter (fun c => truthy (chunkText c)) chunks)).

(** The grounding chunks of the chunks, joined. *)
Definition answerGrounding (chunks : list StreamChunk) : list GroundingChunk :=
  flat_map (fun c => match chunkGrounding c with
                     | Some g => g
                     | None => []
                     end) chunks.

End Chatbot.

(** ** The resources of a live session ([cleanup], [startSession],
    [endSession] of [LiveChat]) *)

Module LiveSession.

Inductive Status := IDLE | CONNECTING | CONNECTED | LISTENING | ERROR | CLOSING.

(** The objects of the Web Audio API that the component creates (audio
    contexts, nodes, buffer sources) are told apart by a number, given in
    the order of creation.

    The component: its status; whether [sessionRef] is set; the node and the
    context each of the four other refs holds; the buffer sources in
    [sourcesRef]; the [onmessage] calls suspended at [decodeAudioData]; the
    audio contexts created and not closed; the nodes connected and not
    disconnected; the microphone streams obtained from [getUserMedia] whose
    tracks have not been stopped; the number of objects created so far. *)
Record Component := mkComponent {
  status : Status;
  sessionRef : bool;
  scriptProcessorRef : option nat;
  mediaStreamSourceRef : option nat;
  audioContextRef : option nat;
  outputAudioContextRef : option nat;
  sourcesRef : list nat;
  decoding : nat;
  openContexts : list nat;
  connectedNodes : list nat;
  microphoneStreams : nat;
  created : nat
}.

Definition mounted : Component :=
  mkComponent IDLE false None None None None [] 0 [] [] 0 0.

Definition setStatus (st : Status) (c : Component) : Component :=
  mkComponent st (sessionRef c) (scriptProcessorRef c) (mediaStreamSourceRef c)
              (audioContextRef c) (outputAudioContextRef c) (sourcesRef c)
              (decoding c) (openContexts c) (connectedNodes c)
              (microphoneStreams c) (created c).

Definition isObject (x : nat) (objects : list nat) : bool :=
  existsb (Nat.eqb x) objects.

Definition withoutObject (x : nat) (objects : list nat) : list nat :=
  filter (fun y => negb (y =? x)%nat) objects.

(** [if (ref.current) { ref.current.disconnect(); ref.current = null; }]:
    the nodes that stay connected. *)
Definition disconnect (ref : option nat) (connected : list nat) : list nat :=
  match ref with
  | Some x => withoutObject x connected
  | None => connected
  end.

(** [if (ref.current && ref.current.state !== 'closed')
       { ref.current.close(); ref.current = null; }]:
    the ref afterwards and the contexts that stay open. *)
Definition closeContext (ref : option nat) (open : list nat)
  : option nat * list nat :=
  match ref with
  | Some x =>
      if isObject x open then (None, withoutObject x open) else (Some x, open)
  | None => (None, open)
  end.

(** [cleanup]: disconnects the two nodes the refs hold, closes the two
    contexts the refs hold, stops and forgets the scheduled sources. *)
Definition cleanup (c : Component) : Component :=
  let closedInput := closeContext (audioContextRef c) (openContexts c) in
  let closedOutput :=
    closeContext (outputAudioContextRef c) (snd closedInput) in
  mkComponent (status c) (sessionRef c) None None
              (fst closedInput) (fst closedOutput) []
              (decoding c) (snd closedOutput)
              (disconnect (mediaStreamSourceRef c)
                 (disconnect (scriptProcessorRef c) (connectedNodes c)))
              (microphoneStreams c) (created c).

(** What happens to the component: the calls of its functions, the
    continuations of [startSession] and [onmessage] after each await, and
    the callbacks of the session.

    [OnOpen true]: the callback runs to its end.  [OnOpen false]: the
    creation of the first node throws, after the status is set.
    [Decoded true]: the continuation of [onmessage] runs to its end.
    [Decoded false]: the decoding is rejected or the creation of the buffer
    source throws. *)
Inductive Event :=
| StartSession
| MicrophoneSettled (granted : bool)
| SessionSettled (connected : bool)
| OnOpen (nodes : bool)
| OnAudio
| Decoded (scheduled : bool)
| SourceEnded (source : nat)
| OnError
| OnClose
| EndSession
| Unmount.

Definition handle (c : Component) (e : Event) : Component :=
  match e with
  | StartSession => setStatus CONNECTING c
  | MicrophoneSettled true =>
      mkComponent (status c) (sessionRef c) (scriptProcessorRef c)
                  (mediaStreamSourceRef c)
                  (Some (created c)) (Some (S (created c)))
                  (sourcesRef c) (decoding c)
                  (created c :: S (created c) :: openContexts c)
                  (connectedNodes c)
                  (S (microphoneStreams c)) (S (S (created c)))
  | MicrophoneSettled false => setStatus ERROR c
  | SessionSettled true =>
      mkComponent (status c) true (scriptProcessorRef c)
                  (mediaStreamSourceRef c) (audioContextRef c)
                  (outputAudioContextRef c) (sourcesRef c) (decoding c)
                  (openContexts c) (connectedNodes c)
                  (microphoneStreams c) (created c)
  | SessionSettled false => setStatus ERROR c
  | OnOpen true =>
      mkComponent CONNECTED (sessionRef c)
                  (Some (S (created c))) (Some (created c))
                  (audioContextRef c) (outputAudioContextRef c)
                  (sourcesRef c) (decoding c) (openContexts c)
                  (created c :: S (created c) :: connectedNodes c)
                  (microphoneStreams c) (S (S (created c)))
  | OnOpen false => setStatus CONNECTED c
  | OnAudio =>
      match outputAudioContextRef c with
      | Some _ =>
          mkComponent (status c) (sessionRef c) (scriptProcessorRef c)
                      (mediaStreamSourceRef c) (audioContextRef c)
                      (outputAudioContextRef c) (sourcesRef c)
                      (S (decoding c)) (openContexts c) (connectedNodes c)
                      (microphoneStreams c) (created c)
      | None => c
      end
  | Decoded scheduled =>
      match decoding c with
      | 0 => c
      | S waiting =>
          if scheduled
          then mkComponent (status c) (sessionRef c) (scriptProcessorRef c)
                           (mediaStreamSourceRef c) (audioContextRef c)
                           (outputAudioContextRef c)
                           (created c :: sourcesRef c) waiting
                           (openContexts c) (connectedNodes c)
                           (microphoneStreams c) (S (created c))
          else mkComponent (status c) (sessionRef c) (scriptProcessorRef c)
                           (mediaStreamSourceRef c) (audioContextRef c)
                           (outputAudioContextRef c) (sourcesRef c) waiting
                           (openContexts c) (connectedNodes c)
                           (microphoneStreams c) (created c)
      end
  | SourceEnded source =>
      mkComponent (status c) (sessionRef c) (scriptProcessorRef c)
                  (mediaStreamSourceRef c) (audioContextRef c)
                  (outputAudioContextRef c)
                  (withoutObject source (sourcesRef c)) (decoding c)
                  (openContexts c) (connectedNodes c)
                  (microphoneStreams c) (created c)
  | OnError => cleanup (setStatus ERROR c)
  | OnClose => cleanup c
  | EndSession =>
      cleanup (mkComponent CLOSING false (scriptProcessorRef c)
                           (mediaStreamSourceRef c) (audioContextRef c)
                           (outputAudioContextRef c) (sourcesRef c)
                           (decoding c) (openContexts c) (connectedNodes c)
                           (microphoneStreams c) (created c))
  | Unmount => cleanup c
  end.

Definition handleAll (es : list Event) (c : Component) : Component :=
  fold_left handle es c.

(** The microphone streams the events obtained. *)
Fixpoint granted (es : list Event) : nat :=
  match es with
  | [] => 0
  | MicrophoneSettled true :: es' => S (granted es')
  | _ :: es' => granted es'
  end.

(** The events that run [cleanup]. *)
Definition releases (e : Event) : bool :=
  match e with
  | OnError | OnClose | EndSession | Unmount => true
  | _ => false
  end.

(** One of the two context refs holds [x]. *)
Definition holdsContext (c : Component) (x : nat) : bool :=
  match audioContextRef c with
  | Some y => (x =? y)%nat
  | None => false
  end ||
  match outputAudioContextRef c with
  | Some y => (x =? y)%nat
  | None => false
  end.

(** One of the two node refs holds [x]. *)
Definition holdsNode (c : Component) (x : nat) : bool :=
  match scriptProcessorRef c with
  | Some y => (x =? y)%nat
  | None => false
  end ||
  match mediaStreamSourceRef c with
  | Some y => (x =? y)%nat
  | None => false
  end.

(** The refs hold nothing of the audio pipeline. *)
Definition refsCleared (c : Component) : Prop :=
  scriptProcessorRef c = None /\
  mediaStreamSourceRef c = None /\
  audioContextRef c = None /\
  outputAudioContextRef c = None /\
  sourcesRef c = [].

(** What every reachable component satisfies: the contexts the refs hold are
    open and are two different ones, and every open context was created. *)
Definition wellFormed (c : Component) : Prop :=
  (forall x, audioContextRef c = Some x -> In x (openContexts c)) /\
  (forall x, outputAudioContextRef c = Some x -> In x (openContexts c)) /\
  (forall x y, audioContextRef c = Some x ->
               outputAudioContextRef c = Some y -> x <> y) /\
  (forall x, In x (openContexts c) -> x < created c).

(** An open context that no ref holds. *)
Definition orphan (x : nat) (c : Component) : Prop :=
  In x (openContexts c) /\ holdsContext c x = false /\ x < created c.

(** The effect restarts the session while the first request for the
    microphone is pending; both requests are then granted. *)
Definition restartedWhilePending : list Event :=
  [StartSession; Unmount; StartSession;
   MicrophoneSettled true; MicrophoneSettled true].

(** A session in which audio arrives and the connection closes while the
    audio is still being decoded. *)
Definition closedWhileDecoding : list Event :=
  [StartSession; MicrophoneSettled true; SessionSettled true; OnOpen true;
   OnAudio].

End LiveSession.

(** * Properties *)

Unset Implicit Arguments.

(** ** Generation Gateway *)

Module GatewayFacts.

Import JS Gateway GatewaySpec.













(** The hypothesis on the reply of generateFromText is needed: the
    operation does not read a prompt feedback.  On an object of the other
    reply type, with the block reason SAFETY and no image, it fails with
    EmptyResult where the steps fail with ContentBlocked. *)
Lemma text_operation_skips_block_reason :
  outcome (validate FromText blockedResponse) = Fails EmptyResult /\
  sharedValidation (reading FromText blockedResponse) =
    Fails (ContentBlocked "SAFETY" None).
Proof. split; reflexivity. Qed.

(** A part whose text is the empty string is passed over by the text scan. *)
Lemma empty_text_part_is_skipped (sr : option (list SafetyRating)) :
  validateContentResponse TryOn
    (mkResponse None
       (Some [mkCandidate (Some "STOP") sr
                (Some (mkContent (Some [mkPart None (Some "")])))])
       None)
  = Throw NoImageData.
Proof. reflexivity. Qed.

(** C10.  In generateTryOnImage and editImage a candidate without a finish
    reason passes the finish-reason check: the result is that of the content
    scan, the same as for the candidate with an accepted finish reason. *)
Theorem absent_finish_reason_is_accepted
  (op : ContentOp) (pf : option PromptFeedback)
  (sr : option (list SafetyRating)) (ct : option Content)
  (cs : list Candidate) (accepted : string) :
  In accepted validFinishReasons ->
  checkFinishReason op (mkCandidate None sr ct) = Return tt /\
  validateContentResponse op (respond pf (mkCandidate None sr ct) cs) =
  validateContentResponse op (respond pf (mkCandidate (Some accepted) sr ct) cs) /\
  (checkPromptFeedback (respond pf (mkCandidate None sr ct) cs) = Return tt ->
   validateContentResponse op (respond pf (mkCandidate None sr ct) cs) =
   bind (contentParts (mkCandidate None sr ct)) scanParts).
Proof.
  intros Hin.
  split; [reflexivity|].
  split.
  - unfold validateContentResponse, respond, checkPromptFeedback; simpl.
    assert (Hfr : checkFinishReason op (mkCandidate (Some accepted) sr ct) = Return tt).
    { destruct Hin as [<-|[<-|[]]]; reflexivity. }
    rewrite Hfr. reflexivity.
  - intros Hpf. unfold validateContentResponse. rewrite Hpf. reflexivity.
Qed.

Lemma absent_finish_reason_is_accepted_witness :
  validateContentResponse Edit
    (respond None
       (mkCandidate None None
          (Some (mkContent (Some [mkPart (Some (mkInlineData (Some "QUJD") (Some "image/png"))) None]))))
       [])
  = Return "data:image/png;base64,QUJD".
Proof.
  destruct (absent_finish_reason_is_accepted Edit None None
              (Some (mkContent (Some [mkPart (Some (mkInlineData (Some "QUJD") (Some "image/png"))) None])))
              [] "STOP" (or_introl eq_refl)) as [_ [_ H]].
  rewrite (H eq_refl). reflexivity.
Defined.

End GatewayFacts.

(** ** Upload Intake *)

Module UploadFacts.

Import Upload.

Local Open Scope N_scope.

Lemma Math_round_div_bounds (a b : N) :
  0 < b ->
  2 * (Math_round_div a b * b) <= 2 * a + b /\
  2 * a < 2 * (Math_round_div a b * b) + b.
Proof.
  intros Hb. unfold Math_round_div.
  assert (H2b : 2 * b <> 0) by lia.
  pose proof (N.Div0.mul_div_le (2 * a + b) (2 * b)) as Hle.
  pose proof (N.mul_succ_div_gt (2 * a + b) (2 * b) H2b) as Hgt.
  set (q := (2 * a + b) / (2 * b)) in *.
  split; nia.
Qed.

Lemma Math_round_div_le (s l m : N) :
  0 < l -> s <= l -> Math_round_div (s * m) l <= m.
Proof.
  intros Hl Hs.
  destruct (Math_round_div_bounds (s * m) l Hl) as [Hle _].
  set (q := Math_round_div (s * m) l) in *.
  destruct (N.le_gt_cases q m) as [Hq|Hq]; [exact Hq|].
  exfalso.
  assert (H1 : (m + 1) * l <= q * l) by (apply N.mul_le_mono_r; lia).
  assert (H2 : s * m <= l * m) by (apply N.mul_le_mono_r; exact Hs).
  lia.
Qed.

Lemma resizeDimensions_large (img : Dimensions) (maxSize : N) :
  maxSize < longerSide img ->
  longerSide (resizeDimensions img maxSize) = maxSize /\
  (height img < width img -> width (resizeDimensions img maxSize) = maxSize) /\
  (width img <= height img -> height (resizeDimensions img maxSize) = maxSize) /\
  keepsAspectRatio img (resizeDimensions img maxSize).
Proof.
  unfold keepsAspectRatio, resizeDimensions.
  destruct img as [w h]. unfold longerSide.
  cbn [width height]. intros Hbig.
  destruct (N.ltb_spec h w) as [Hhw|Hwh].
  - destruct (N.ltb_spec maxSize w) as [Hm|Hm]; [|lia].
    cbn [width height].
    assert (Hw : 0 < w) by lia.
    pose proof (Math_round_div_le h w maxSize Hw ltac:(lia)) as Hr.
    destruct (Math_round_div_bounds (h * maxSize) w Hw) as [B1 B2].
    set (r := Math_round_div (h * maxSize) w) in *.
    rewrite (N.max_l _ _ Hr), (N.max_l w h) by lia.
    split; [reflexivity|]. split; [reflexivity|]. split; [lia|].
    split; lia.
  - destruct (N.ltb_spec maxSize h) as [Hm|Hm]; [|lia].
    cbn [width height].
    assert (Hh : 0 < h) by lia.
    pose proof (Math_round_div_le w h maxSize Hh Hwh) as Hr.
    destruct (Math_round_div_bounds (w * maxSize) h Hh) as [B1 B2].
    set (r := Math_round_div (w * maxSize) h) in *.
    rewrite (N.max_r _ _ Hr), (N.max_r w h) by lia.
    split; [reflexivity|]. split; [lia|]. split; [reflexivity|].
    split; lia.
Qed.

Lemma resizeDimensions_small (img : Dimensions) (maxSize : N) :
  longerSide img <= maxSize -> resizeDimensions img maxSize = img.
Proof.
  unfold resizeDimensions, longerSide.
  destruct img as [w h]; simpl. intros Hsmall.
  destruct (N.ltb_spec h w); destruct (N.ltb_spec maxSize w);
    destruct (N.ltb_spec maxSize h); try reflexivity; lia.
Qed.






End UploadFacts.

(** ** Lookbook Orchestrator *)

Module AppFacts.

Import JS App AppInvariants.

(** *** Array writes *)

Lemma get_nil {A} (j : nat) : get (@nil (option A)) j = None.
Proof. destruct j; reflexivity. Qed.

Lemma get_cons {A} (x : option A) (l : list (option A)) (j : nat) :
  get (x :: l) (S j) = get l j.
Proof. reflexivity. Qed.

Lemma get_set_same {A} (l : list (option A)) (i : nat) (v : option A) :
  get (set l i v) i = v.
Proof.
  revert l; induction i as [|i IH]; intros [|x l]; simpl; try reflexivity.
  - rewrite get_cons. apply (IH []).
  - rewrite get_cons. apply IH.
Qed.

Lemma get_set_other {A} (l : list (option A)) (i j : nat) (v : option A) :
  j <> i -> get (set l i v) j = get l j.
Proof.
  revert l j; induction i as [|i IH]; intros [|x l] [|j] Hne; simpl;
    try reflexivity; try congruence.
  - rewrite !get_cons, !get_nil. reflexivity.
  - rewrite get_cons, (IH [] j) by congruence. rewrite !get_nil. reflexivity.
  - rewrite !get_cons. apply IH. congruence.
Qed.

Lemma length_set_in_range {A} (l : list (option A)) (i : nat) (v : option A) :
  i < List.length l -> List.length (set l i v) = List.length l.
Proof.
  revert l; induction i as [|i IH]; intros [|x l] Hlt; simpl in *; try lia.
  rewrite IH by lia. reflexivity.
Qed.

(** *** Results of the Gateway are data URLs, never a marker string *)

Lemma dataUrl_is_ready (u : string) :
  isDataUrl u = true -> slotState (Some u) = Ready u.
Proof.
  unfold isDataUrl. destruct u as [|a u]; [discriminate|].
  cbn [String.prefix].
  match goal with
  | |- context [ascii_dec ?x a] => destruct (ascii_dec x a) as [<-|]
  end; [|discriminate].
  intros _. reflexivity.
Qed.

Lemma prefix_append (p x : string) : String.prefix p (p ++ x) = true.
Proof.
  induction p as [|a p IH]; simpl.
  - destruct x; reflexivity.
  - destruct (ascii_dec a a) as [_|Hne]; [exact IH | congruence].
Qed.

Lemma scanInlineData_dataUrl (ps : list Gateway.Part) (u : string) :
  Gateway.scanInlineData ps = Some u -> isDataUrl u = true.
Proof.
  induction ps as [|p ps IH]; simpl; [discriminate|].
  destruct (Gateway.inlineData p) as [d|]; [|exact IH].
  intros H. injection H as <-. apply prefix_append.
Qed.

Lemma validateContentResponse_dataUrl
  (op : Gateway.ContentOp) (r : Gateway.Response) (u : string) :
  Gateway.validateContentResponse op r = Return u -> isDataUrl u = true.
Proof.
  unfold Gateway.validateContentResponse.
  destruct (Gateway.checkPromptFeedback r); simpl; [|discriminate].
  destruct (Gateway.firstCandidate r) as [c|]; simpl; [|discriminate].
  destruct (Gateway.checkFinishReason op c); simpl; [|discriminate].
  destruct (Gateway.contentParts c) as [ps|]; simpl; [|discriminate].
  unfold Gateway.scanParts.
  destruct (Gateway.scanInlineData ps) as [url|] eqn:E.
  - intros H. injection H as <-. exact (scanInlineData_dataUrl _ _ E).
  - destruct (Gateway.scanText ps); discriminate.
Qed.

Lemma validateImagesResponse_dataUrl (r : Gateway.Response) (u : string) :
  Gateway.validateImagesResponse r = Return u -> isDataUrl u = true.
Proof.
  unfold Gateway.validateImagesResponse.
  destruct (Gateway.generatedImages r) as [[|g gs]|]; simpl; try discriminate.
  destruct (Gateway.image g) as [img|]; [|discriminate].
  destruct (truthy (Gateway.imageBytes img)); [|discriminate].
  intros H. injection H as <-.
  apply (prefix_append "data:" ("image/jpeg;base64," ++ str (Gateway.imageBytes img))).
Qed.

Lemma gatewayResult_dataUrl
  (c : GatewayCall) (o : Gateway.ApiOutcome) (u : string) :
  gatewayResult c o = Return u -> isDataUrl u = true.
Proof.
  destruct c; destruct o; simpl; try discriminate.
  - apply validateContentResponse_dataUrl.
  - apply validateImagesResponse_dataUrl.
  - apply validateContentResponse_dataUrl.
Qed.

Lemma editImage_dataUrl (o : Gateway.ApiOutcome) (u : string) :
  Gateway.editImage o = Return u -> isDataUrl u = true.
Proof. apply (gatewayResult_dataUrl (CallEdit "" "" None)). Qed.

Lemma variantSlot_state (o : Gateway.ApiOutcome) :
  slotState (variantSlot o) =
  match Gateway.editImage o with
  | Return variationImage => Ready variationImage
  | Throw _ => Failed
  end.
Proof.
  unfold variantSlot.
  destruct (Gateway.editImage o) as [u|e] eqn:E; [|reflexivity].
  apply dataUrl_is_ready. exact (editImage_dataUrl _ _ E).
Qed.

Lemma variantSlot_settled (o : Gateway.ApiOutcome) :
  isReadyOrFailed (variantSlot o) = true.
Proof.
  unfold isReadyOrFailed. rewrite variantSlot_state.
  destruct (Gateway.editImage o); reflexivity.
Qed.

(** *** The base call is never an edit call *)


Lemma settled_is_final (m : Machine) (ev : Event) :
  phase m = Settled -> step m ev = None.
Proof. unfold step. intros ->. reflexivity. Qed.

Lemma missingInput_spec (s : State) :
  missingInput s = true <-> uploadedImages s = [] /\ modelDescription s = "".
Proof.
  unfold missingInput. rewrite andb_true_iff, Nat.eqb_eq, String.eqb_eq.
  rewrite length_zero_iff_nil. reflexivity.
Qed.

(** C6.  When no image is uploaded and the description is empty,
    handleGenerate surfaces the validation message and returns at once: it
    issues no Gateway call, awaits nothing, and leaves the slots and the
    loading flag as they were. *)
Theorem generate_rejects_missing_input (s : State) :
  uploadedImages s = [] ->
  modelDescription s = "" ->
  error (app (handleGenerate s)) = Some missingInputMessage /\
  calls (handleGenerate s) = [] /\
  phase (handleGenerate s) = Settled /\
  (forall ev, step (handleGenerate s) ev = None) /\
  generatedImages (app (handleGenerate s)) = generatedImages s /\
  isLoading (app (handleGenerate s)) = isLoading s.
Proof.
  intros Himg Hdesc.
  assert (Hmiss : missingInput (setError None s) = true).
  { apply missingInput_spec. split; assumption. }
  unfold handleGenerate. rewrite Hmiss.
  repeat split.
Qed.

Lemma generate_rejects_missing_input_witness :
  error (app (handleGenerate (setModelDescription "" initialState))) =
    Some missingInputMessage /\
  calls (handleGenerate (setModelDescription "" initialState)) = [].
Proof.
  destruct (generate_rejects_missing_input
              (setModelDescription "" initialState) eq_refl eq_refl)
    as [He [Hc _]].
  split; [exact He | exact Hc].
Defined.

(** What [handleGenerate] leaves behind when the input is sufficient. *)
Lemma handleGenerate_starts (s : State) :
  missingInput s = false ->
  handleGenerate s =
  mkMachine
    (setGeneratedImages
       (fun _ => if isLookbookMode s then fill 4 loading else [loading])
       (setIsLoading true (setError None s)))
    (AwaitBase (generateBaseImage s) (isLookbookMode s))
    [generateBaseImage s].
Proof.
  intros H. unfold handleGenerate.
  change (missingInput (setError None s)) with (missingInput s).
  rewrite H. reflexivity.
Qed.

(** *** The message of a failure *)








(** *** The pending set *)

Lemma isPending_In (i : nat) (pending : list nat) :
  isPending i pending = true <-> In i pending.
Proof.
  unfold isPending. rewrite existsb_exists. split.
  - intros [j [Hj Heq]]. apply Nat.eqb_eq in Heq. subst. exact Hj.
  - intros H. exists i. split; [exact H | apply Nat.eqb_refl].
Qed.

Lemma without_In (i j : nat) (pending : list nat) :
  In j (without i pending) <-> In j pending /\ j <> i.
Proof.
  unfold without. rewrite filter_In, negb_true_iff, Nat.eqb_neq. reflexivity.
Qed.

Lemma without_NoDup (i : nat) (pending : list nat) :
  NoDup pending -> NoDup (without i pending).
Proof. apply NoDup_filter. Qed.

Lemma without_absent (i : nat) (pending : list nat) :
  ~ In i pending -> without i pending = pending.
Proof.
  induction pending as [|j pending IH]; simpl; intros Hni; [reflexivity|].
  destruct (Nat.eqb_spec j i) as [->|Hne]; simpl.
  - exfalso. apply Hni. left. reflexivity.
  - rewrite IH; [reflexivity|]. intros H. apply Hni. right. exact H.
Qed.

Lemma without_length (i : nat) (pending : list nat) :
  NoDup pending -> In i pending ->
  S (List.length (without i pending)) = List.length pending.
Proof.
  induction pending as [|j pending IH]; simpl; intros Hnd Hin; [contradiction|].
  inversion Hnd as [|? ? Hnotin Hnd']; subst.
  destruct (Nat.eqb_spec j i) as [->|Hne]; simpl.
  - rewrite (without_absent i pending Hnotin). reflexivity.
  - destruct Hin as [Heq|Hin]; [congruence|].
    rewrite (IH Hnd' Hin). reflexivity.
Qed.

Lemma variantSlotInv_written
  (i : nat) (pending : list nat) (o : Gateway.ApiOutcome) :
  variantSlotInv (without i pending) i (variantSlot o).
Proof.
  split.
  - intros H. apply without_In in H. destruct H as [_ H]. congruence.
  - intros _. apply variantSlot_settled.
Qed.

Lemma variantSlotInv_kept
  (i j : nat) (pending : list nat) (x : ImageState) :
  j <> i -> variantSlotInv pending j x -> variantSlotInv (without i pending) j x.
Proof.
  intros Hne [Hload Hdone]. split.
  - intros H. apply Hload. apply without_In in H. tauto.
  - intros H. apply Hdone. intros Hin. apply H. apply without_In. tauto.
Qed.

Lemma variantSlotInv_nil (j : nat) (x : ImageState) :
  variantSlotInv [] j x -> isReadyOrFailed x = true.
Proof. intros [_ H]. apply H. intros []. Qed.

(** Both callbacks of variant [i] write [variantSlot o] at index [i]. *)
Lemma variant_callbacks_write (i : nat) (o : Gateway.ApiOutcome) (s : State) :
  match Gateway.editImage o with
  | Return variationImage => variantFulfilled i variationImage s
  | Throw _ => variantRejected i s
  end = setGeneratedImages (fun prev => set prev i (variantSlot o)) s.
Proof.
  unfold variantSlot, variantFulfilled, variantRejected.
  destruct (Gateway.editImage o); reflexivity.
Qed.

(** *** One step after the base image arrived *)

Lemma afterBase_step
  (baseImage : string) (lookbook : bool) (m m' : Machine) (ev : Event) :
  afterBase baseImage lookbook m ->
  step m ev = Some m' ->
  afterBase baseImage lookbook m' /\ outstanding m = S (outstanding m').
Proof.
  destruct m as [s ph cs]. unfold afterBase, outstanding, step. simpl.
  intros [Herr Hph] Hstep.
  destruct ph as [call lb|pending|]; [contradiction| |destruct ev; discriminate].
  destruct ev as [o|i o]; [discriminate|].
  destruct Hph as [Hlb [Hload [Hne [Hnd [Hsub [x1 [x2 [x3 [Hslots [H1 [H2 H3]]]]]]]]]]].
  destruct (isPending i pending) eqn:Hp; [|discriminate].
  apply isPending_In in Hp.
  rewrite variant_callbacks_write in Hstep.
  pose proof (without_length i pending Hnd Hp) as Hlen.
  pose proof (without_NoDup i pending Hnd) as Hnd'.
  assert (Hsub' : forall j, In j (without i pending) -> In j [1; 2; 3]).
  { intros j Hj. apply Hsub. apply without_In in Hj. tauto. }
  assert (Hnew : exists y1 y2 y3,
             set (generatedImages s) i (variantSlot o) =
               [Some baseImage; y1; y2; y3] /\
             variantSlotInv (without i pending) 1 y1 /\
             variantSlotInv (without i pending) 2 y2 /\
             variantSlotInv (without i pending) 3 y3).
  { rewrite Hslots.
    destruct (Hsub i Hp) as [<-|[<-|[<-|[]]]]; simpl.
    - exists (variantSlot o), x2, x3.
      split; [reflexivity|]. split; [apply variantSlotInv_written|].
      split; (apply variantSlotInv_kept; [lia | assumption]).
    - exists x1, (variantSlot o), x3.
      split; [reflexivity|].
      split; [apply variantSlotInv_kept; [lia | assumption]|].
      split; [apply variantSlotInv_written|].
      apply variantSlotInv_kept; [lia | assumption].
    - exists x1, x2, (variantSlot o).
      split; [reflexivity|].
      split; [apply variantSlotInv_kept; [lia | assumption]|].
      split; [apply variantSlotInv_kept; [lia | assumption]|].
      apply variantSlotInv_written. }
  destruct Hnew as [y1 [y2 [y3 [Hset [G1 [G2 G3]]]]]].
  destruct (without i pending) as [|n rest] eqn:Hw.
  - injection Hstep as <-. simpl. rewrite Hset. split; [|simpl in Hlen; lia].
    split; [exact Herr|]. split; [reflexivity|].
    exists [y1; y2; y3]. split; [reflexivity|].
    subst lookbook. split; [reflexivity|]. simpl.
    rewrite (variantSlotInv_nil 1 y1 G1), (variantSlotInv_nil 2 y2 G2),
      (variantSlotInv_nil 3 y3 G3). reflexivity.
  - injection Hstep as <-. simpl. rewrite Hset. split; [|simpl in Hlen; lia].
    split; [exact Herr|].
    split; [exact Hlb|]. split; [exact Hload|]. split; [discriminate|].
    split; [exact Hnd'|]. split; [exact Hsub'|].
    exists y1, y2, y3.
    split; [reflexivity|]. split; [exact G1|]. split; [exact G2 | exact G3].
Qed.

Lemma afterBase_run
  (baseImage : string) (lookbook : bool) (evs : list Event) (m m' : Machine) :
  afterBase baseImage lookbook m ->
  run m evs = Some m' ->
  afterBase baseImage lookbook m' /\
  outstanding m = List.length evs + outstanding m'.
Proof.
  revert m; induction evs as [|ev evs IH]; simpl; intros m Hinv Hrun.
  - injection Hrun as <-. split; [exact Hinv | reflexivity].
  - destruct (step m ev) as [m1|] eqn:Hstep; [|discriminate].
    destruct (afterBase_step _ _ _ _ _ Hinv Hstep) as [Hinv1 Hout].
    destruct (IH m1 Hinv1 Hrun) as [Hinv' Hout'].
    split; [exact Hinv' | lia].
Qed.

(** The state right after the base image arrived. *)
Lemma afterBase_established
  (s : State) (o : Gateway.ApiOutcome) (baseImage : string) (m : Machine) :
  missingInput s = false ->
  gatewayResult (generateBaseImage s) o = Return baseImage ->
  step (handleGenerate s) (BaseSettled o) = Some m ->
  afterBase baseImage (isLookbookMode s) m /\
  outstanding m = variantCount s /\
  history (app m) = slice0 5 (baseImage :: history s) /\
  calls m = generateBaseImage s ::
            map (fun _ : nat => CallEdit baseImage variationPrompt None)
                (seq 1 (variantCount s)).
Proof.
  intros Hvalid Hok.
  rewrite (handleGenerate_starts _ Hvalid).
  unfold step, variantCount. simpl. rewrite Hok.
  destruct (isLookbookMode s) eqn:Hlb; intros H; injection H as <-;
    unfold afterBase, outstanding; simpl.
  - repeat split; try reflexivity; try discriminate.
    + repeat constructor; simpl; intuition discriminate.
    + intros i Hi. exact Hi.
    + exists loading, loading, loading.
      repeat split; try reflexivity; intros H; exfalso; apply H; simpl; tauto.
  - repeat split; try reflexivity.
    exists []. repeat split.
Qed.

(** [isLoading] is cleared exactly when nothing is awaited any more. *)
Lemma joinInvariant_step (m m' : Machine) (ev : Event) :
  joinInvariant m -> step m ev = Some m' -> joinInvariant m'.
Proof.
  destruct m as [s ph cs]. unfold joinInvariant, step. simpl.
  intros Hinv Hstep.
  destruct ph as [call lb|pending|]; destruct ev as [o|i o]; try discriminate.
  - destruct (gatewayResult call o); [destruct lb|];
      injection Hstep as <-; simpl; try reflexivity. exact Hinv.
  - destruct (isPending i pending); [|discriminate].
    rewrite variant_callbacks_write in Hstep.
    destruct (without i pending); injection Hstep as <-; simpl;
      [reflexivity | exact Hinv].
Qed.

Lemma joinInvariant_run (evs : list Event) (m m' : Machine) :
  joinInvariant m -> run m evs = Some m' -> joinInvariant m'.
Proof.
  revert m; induction evs as [|ev evs IH]; simpl; intros m Hinv Hrun.
  - injection Hrun as <-. exact Hinv.
  - destruct (step m ev) as [m1|] eqn:Hstep; [|discriminate].
    exact (IH m1 (joinInvariant_step _ _ _ Hinv Hstep) Hrun).
Qed.


(** *** Every completion order of the three variants *)

Lemma permutations_of_three (order : list nat) :
  Permutation [1; 2; 3] order ->
  order = [1; 2; 3] \/ order = [1; 3; 2] \/ order = [2; 1; 3] \/
  order = [2; 3; 1] \/ order = [3; 1; 2] \/ order = [3; 2; 1].
Proof.
  intros H.
  pose proof (Permutation_length H) as Hlen.
  destruct order as [|a [|b [|c [|d rest]]]]; try discriminate.
  assert (Ha : In a [1; 2; 3])
    by (apply (Permutation_in _ (Permutation_sym H)); simpl; auto).
  assert (Hb : In b [1; 2; 3])
    by (apply (Permutation_in _ (Permutation_sym H)); simpl; auto).
  assert (Hc : In c [1; 2; 3])
    by (apply (Permutation_in _ (Permutation_sym H)); simpl; auto).
  assert (Hnd : NoDup [a; b; c]).
  { apply (Permutation_NoDup H).
    repeat constructor; simpl; intuition discriminate. }
  inversion Hnd as [|? ? Hna Hnd1]; subst.
  inversion Hnd1 as [|? ? Hnb _]; subst.
  simpl in Ha, Hb, Hc, Hna, Hnb.
  destruct Ha as [<-|[<-|[<-|[]]]];
    destruct Hb as [<-|[<-|[<-|[]]]];
    destruct Hc as [<-|[<-|[<-|[]]]];
    try (exfalso; tauto);
    repeat (first [left; reflexivity | right]); reflexivity.
Qed.

(** In lookbook mode, after a base image, every completion order of the
    three variants settles the invocation with each variant in its own
    slot. *)
Lemma lookbook_run
  (s : State) (o : Gateway.ApiOutcome) (baseImage : string)
  (order : list nat) (outcomes : nat -> Gateway.ApiOutcome) :
  missingInput s = false ->
  isLookbookMode s = true ->
  gatewayResult (generateBaseImage s) o = Return baseImage ->
  Permutation [1; 2; 3] order ->
  exists m,
    run (handleGenerate s) (BaseSettled o :: variantsSettle order outcomes) = Some m /\
    phase m = Settled /\
    generatedImages (app m) =
      [Some baseImage; variantSlot (outcomes 1); variantSlot (outcomes 2);
       variantSlot (outcomes 3)] /\
    error (app m) = None /\
    isLoading (app m) = false.
Proof.
  intros Hvalid Hlb Hok Hperm.
  rewrite (handleGenerate_starts s Hvalid).
  unfold variantsSettle, run. unfold step at 1. cbn [phase app calls].
  rewrite Hok, Hlb.
  destruct (permutations_of_three order Hperm)
    as [-> | [-> | [-> | [-> | [-> | ->]]]]];
    unfold step; cbn [phase app calls map isPending existsb Nat.eqb orb
                      without filter negb];
    rewrite !variant_callbacks_write;
    eexists; (split; [reflexivity|]); repeat split.
Qed.

(** *** The invocation among the other handlers *)




Lemma runWith_completes (evs : list Event) (m : Machine) :
  runWith m (map Completes evs) = run m evs.
Proof.
  revert m; induction evs as [|ev evs IH]; intros m; simpl; [reflexivity|].
  destruct (step m ev) as [m1|]; [apply IH | reflexivity].
Qed.











(** The condition on the other handlers is needed: with a reset while
    the variants are awaited the invocation settles with an empty slot 0,
    and without the slot of the variant that completed before the reset. *)
Lemma reset_meanwhile_empties_base_slot :
  exists m,
    runWith (handleGenerate oneUploadLookbook) resetLookbook = Some m /\
    phase m = Settled /\
    isLoading (app m) = false /\
    map slotState (generatedImages (app m)) =
      [Empty; Ready pngImage; Failed].
Proof.
  eexists. split; [reflexivity|].
  split; [reflexivity|]. split; reflexivity.
Qed.

(** C4.  The completion of variant i writes slot i and nothing else: the
    slot becomes the variant image on success and the failure marker on
    error, every other slot, the error, the history and the issued calls
    stay as they were.  Hence, whatever the order of the completions, each
    variant slot ends Ready with its own image or Failed by its own call
    only, and the error surfaced stays empty. *)
Theorem variant_completion_writes_own_slot :
  (forall m m' i o,
      step m (VariantSettled i o) = Some m' ->
      generatedImages (app m') = set (generatedImages (app m)) i (variantSlot o) /\
      get (generatedImages (app m')) i = variantSlot o /\
      (forall j, j <> i ->
                 get (generatedImages (app m')) j = get (generatedImages (app m)) j) /\
      error (app m') = error (app m) /\
      history (app m') = history (app m) /\
      calls m' = calls m) /\
  (forall o,
      slotState (variantSlot o) =
      match Gateway.editImage o with
      | Return variationImage => Ready variationImage
      | Throw _ => Failed
      end) /\
  (forall s o baseImage order outcomes,
      missingInput s = false ->
      isLookbookMode s = true ->
      gatewayResult (generateBaseImage s) o = Return baseImage ->
      Permutation [1; 2; 3] order ->
      exists m,
        run (handleGenerate s) (BaseSettled o :: variantsSettle order outcomes)
          = Some m /\
        phase m = Settled /\
        generatedImages (app m) =
          [Some baseImage; variantSlot (outcomes 1); variantSlot (outcomes 2);
           variantSlot (outcomes 3)] /\
        error (app m) = None).
Proof.
  split; [|split].
  - intros [s ph cs] m' i o. unfold step. simpl.
    destruct ph as [call lb|pending|]; try discriminate.
    destruct (isPending i pending); [|discriminate].
    rewrite variant_callbacks_write.
    intros Hstep.
    assert (Hm' : generatedImages (app m') =
                  set (generatedImages s) i (variantSlot o) /\
                  error (app m') = error s /\
                  history (app m') = history s /\
                  calls m' = cs).
    { destruct (without i pending); injection Hstep as <-; simpl;
        repeat split. }
    destruct Hm' as [Hslots [Herr [Hhist Hcalls]]].
    rewrite Hslots.
    split; [reflexivity|].
    split; [apply get_set_same|].
    split; [intros j Hj; apply get_set_other; exact Hj|].
    repeat split; assumption.
  - exact variantSlot_state.
  - intros s o baseImage order outcomes Hvalid Hlb Hok Hperm.
    destruct (lookbook_run s o baseImage order outcomes Hvalid Hlb Hok Hperm)
      as [m [Hrun [Hph [Hslots [Herr _]]]]].
    exists m. repeat split; assumption.
Qed.

Lemma variant_completion_writes_own_slot_witness :
  exists m,
    run (handleGenerate oneUploadLookbook)
        (BaseSettled (Gateway.ApiReturned pngResponse) ::
         variantsSettle [3; 1; 2] secondVariantFails) = Some m /\
    map slotState (generatedImages (app m)) =
      [Ready pngImage; Ready pngImage; Failed; Ready pngImage] /\
    error (app m) = None.
Proof.
  destruct variant_completion_writes_own_slot as [_ [_ Hrun]].
  destruct (Hrun oneUploadLookbook (Gateway.ApiReturned pngResponse) pngImage
              [3; 1; 2] secondVariantFails eq_refl eq_refl eq_refl)
    as [m [Hm [_ [Hslots Herr]]]].
  - apply Permutation_sym.
    apply (perm_trans (l' := [1; 3; 2])).
    + apply perm_swap.
    + apply perm_skip. apply perm_swap.
  - exists m. split; [exact Hm|]. split; [|exact Herr].
    rewrite Hslots. reflexivity.
Defined.

(** *** [handleEdit] *)

Lemma dataUrl_truthy (u : string) :
  isDataUrl u = true -> truthy (Some u) = true.
Proof. destruct u; [discriminate | reflexivity]. Qed.

Lemma handleEdit_guard (s : State) :
  truthy (imageToEdit s) = false \/ editPrompt s = "" ->
  handleEdit s = (s, None).
Proof.
  unfold handleEdit. intros [H|H]; rewrite H; simpl.
  - reflexivity.
  - rewrite orb_true_r. reflexivity.
Qed.

Lemma handleEdit_proceeds (s : State) (img : string) :
  imageToEdit s = Some img -> img <> "" -> editPrompt s <> "" ->
  handleEdit s =
  (setIsEditing true (setError None s),
   Some (CallEdit img (editPrompt s) (faceSourceImage s))).
Proof.
  intros Himg Hne Hprompt. unfold handleEdit. rewrite Himg. simpl.
  apply String.eqb_neq in Hne. apply String.eqb_neq in Hprompt.
  rewrite Hne, Hprompt. reflexivity.
Qed.

Lemma edit_succeeds (s : State) (img : string) (o : Gateway.ApiOutcome)
  (resultImage : string) :
  imageToEdit s = Some img -> img <> "" -> editPrompt s <> "" ->
  Gateway.editImage o = Return resultImage ->
  edit o s =
  editFinally (editFulfilled resultImage (setIsEditing true (setError None s))).
Proof.
  intros Himg Hne Hprompt Hok. unfold edit.
  rewrite (handleEdit_proceeds s img Himg Hne Hprompt).
  unfold editSettled. rewrite Hok. reflexivity.
Qed.

(** C5, as the code has it.  handleEdit proceeds whenever slot 0 holds a
    non-empty string and the prompt is not empty, whatever the number of
    slots; otherwise it returns at once without a call, without a change of
    state and without an error.  When the edit call succeeds the slot list
    becomes the single slot holding the edited image; a second edit is issued
    on that image with its own prompt and again leaves the single slot of its
    result.  When the edit call fails the slots stay and the message is
    surfaced. *)
Theorem edit_collapses_slots_to_result :
  (forall s,
      truthy (imageToEdit s) = false \/ editPrompt s = "" ->
      handleEdit s = (s, None) /\ forall o, edit o s = s) /\
  (forall s img o resultImage,
      imageToEdit s = Some img -> img <> "" -> editPrompt s <> "" ->
      Gateway.editImage o = Return resultImage ->
      snd (handleEdit s) = Some (CallEdit img (editPrompt s) (faceSourceImage s)) /\
      generatedImages (edit o s) = [Some resultImage] /\
      slotState (Some resultImage) = Ready resultImage /\
      error (edit o s) = None /\
      isEditing (edit o s) = false) /\
  (forall s img o1 o2 first second prompt2,
      imageToEdit s = Some img -> img <> "" -> editPrompt s <> "" ->
      Gateway.editImage o1 = Return first ->
      prompt2 <> "" ->
      Gateway.editImage o2 = Return second ->
      snd (handleEdit (setEditPrompt prompt2 (edit o1 s))) =
        Some (CallEdit first prompt2 (faceSourceImage s)) /\
      generatedImages (edit o2 (setEditPrompt prompt2 (edit o1 s))) =
        [Some second]) /\
  (forall s img o err,
      imageToEdit s = Some img -> img <> "" -> editPrompt s <> "" ->
      Gateway.editImage o = Throw err ->
      generatedImages (edit o s) = generatedImages s /\
      error (edit o s) = Some (Gateway.message err) /\
      isEditing (edit o s) = false).
Proof.
  split; [|split; [|split]].
  - intros s H. pose proof (handleEdit_guard s H) as Hg.
    split; [exact Hg|]. intros o. unfold edit. rewrite Hg. reflexivity.
  - intros s img o resultImage Himg Hne Hprompt Hok.
    rewrite (edit_succeeds s img o resultImage Himg Hne Hprompt Hok).
    rewrite (handleEdit_proceeds s img Himg Hne Hprompt).
    repeat split.
    apply dataUrl_is_ready. exact (editImage_dataUrl o resultImage Hok).
  - intros s img o1 o2 first second prompt2 Himg Hne Hprompt Hok1 Hp2 Hok2.
    pose proof (editImage_dataUrl o1 first Hok1) as Hurl.
    assert (Hfirst : first <> "").
    { intros ->. discriminate Hurl. }
    rewrite (edit_succeeds s img o1 first Himg Hne Hprompt Hok1).
    set (s1 := setEditPrompt prompt2
                 (editFinally (editFulfilled first
                                 (setIsEditing true (setError None s))))).
    assert (Himg1 : imageToEdit s1 = Some first) by reflexivity.
    assert (Hprompt1 : editPrompt s1 <> "") by exact Hp2.
    rewrite (edit_succeeds s1 first o2 second Himg1 Hfirst Hprompt1 Hok2).
    rewrite (handleEdit_proceeds s1 first Himg1 Hfirst Hprompt1).
    split; reflexivity.
  - intros s img o err Himg Hne Hprompt Hfail.
    unfold edit. rewrite (handleEdit_proceeds s img Himg Hne Hprompt).
    unfold editSettled. rewrite Hfail. repeat split.
Qed.

Lemma edit_collapses_slots_to_result_witness :
  generatedImages
    (edit (Gateway.ApiReturned pngResponse) fourImagesWithPrompt) =
  [Some pngImage].
Proof.
  destruct edit_collapses_slots_to_result as [_ [Hok _]].
  destruct (Hok fourImagesWithPrompt pngImage (Gateway.ApiReturned pngResponse)
              pngImage eq_refl) as [_ [Hslots _]].
  - discriminate.
  - discriminate.
  - reflexivity.
  - exact Hslots.
Defined.

(** C5 as stated fails twice.  With an empty prompt handleEdit returns
    without surfacing any error; and with four Ready slots and a prompt it
    issues its edit call. *)
Lemma edit_guard_is_silent_and_ignores_slot_count :
  editPrompt oneImageNoPrompt = "" /\
  handleEdit oneImageNoPrompt = (oneImageNoPrompt, None) /\
  error (fst (handleEdit oneImageNoPrompt)) = None /\
  map slotState (generatedImages fourImagesWithPrompt) =
    [Ready pngImage; Ready pngImage; Ready pngImage; Ready pngImage] /\
  snd (handleEdit fourImagesWithPrompt) =
    Some (CallEdit pngImage "add a hat" None).
Proof. repeat split. Qed.

(** *** The history *)

Lemma firstn_cons_firstn {A} (x : A) (h : list A) :
  firstn 5 (x :: firstn 5 h) = firstn 5 (x :: h).
Proof.
  change (firstn 5 (x :: firstn 5 h)) with (x :: firstn 4 (firstn 5 h)).
  rewrite firstn_firstn. reflexivity.
Qed.

Lemma history_exec (s : State) (g : Segment) :
  history (exec s g) =
  match g with
  | SegBaseFulfilled img | SegEditFulfilled img =>
      slice0 5 (img :: history s)
  | _ => history s
  end.
Proof.
  destruct g; simpl; try reflexivity.
  - unfold handleGenerate.
    destruct (missingInput (setError None s)); reflexivity.
  - unfold handleEdit.
    destruct (negb (truthy (imageToEdit s)) || (editPrompt s =? ""));
      reflexivity.
  - unfold historyClick. destruct (nth_error (history s) k); reflexivity.
  - unfold handleImageDelete.
    destruct (faceSourceIndex s) as [i|]; [destruct (i =? index)%nat|];
      reflexivity.
Qed.

Lemma history_execAll (gs : list Segment) (s : State) (h : list string) :
  history s = firstn 5 h ->
  history (execAll gs s) = firstn 5 (rev (produced gs) ++ h).
Proof.
  revert s h; induction gs as [|g gs IH]; intros s h Hs.
  - exact Hs.
  - change (execAll (g :: gs) s) with (execAll gs (exec s g)).
    pose proof (history_exec s g) as Hg.
    destruct g; cbv beta iota in Hg; cbn [produced rev];
      try (apply IH; rewrite Hg; exact Hs).
    + rewrite <- app_assoc. apply IH.
      rewrite Hg, Hs. unfold slice0. apply firstn_cons_firstn.
    + rewrite <- app_assoc. apply IH.
      rewrite Hg, Hs. unfold slice0. apply firstn_cons_firstn.
Qed.

(** C8.  A base image that arrives and an edit that succeeds each put their
    result at the front of the history, cut to five entries.  Whatever the
    order in which the pieces of the handlers run from the initial state, the
    history is the five most recent of these results, most recent first; so
    it never has more than five entries. *)
Theorem history_keeps_five_most_recent :
  (forall s o baseImage,
      missingInput s = false ->
      gatewayResult (generateBaseImage s) o = Return baseImage ->
      exists m,
        step (handleGenerate s) (BaseSettled o) = Some m /\
        history (app m) = baseImage :: firstn 4 (history s)) /\
  (forall s img o resultImage,
      imageToEdit s = Some img -> img <> "" -> editPrompt s <> "" ->
      Gateway.editImage o = Return resultImage ->
      history (edit o s) = resultImage :: firstn 4 (history s)) /\
  (forall gs,
      history (execAll gs initialState) = firstn 5 (rev (produced gs)) /\
      List.length (history (execAll gs initialState)) <= 5).
Proof.
  split; [|split].
  - intros s o baseImage Hvalid Hok.
    destruct (step (handleGenerate s) (BaseSettled o)) as [m|] eqn:Hstep.
    + exists m. split; [reflexivity|].
      destruct (afterBase_established s o baseImage m Hvalid Hok Hstep)
        as [_ [_ [Hhist _]]].
      exact Hhist.
    + exfalso. revert Hstep.
      rewrite (handleGenerate_starts s Hvalid). unfold step. simpl.
      rewrite Hok. destruct (isLookbookMode s); discriminate.
  - intros s img o resultImage Himg Hne Hprompt Hok.
    rewrite (edit_succeeds s img o resultImage Himg Hne Hprompt Hok).
    reflexivity.
  - intros gs.
    assert (H : history (execAll gs initialState) = firstn 5 (rev (produced gs))).
    { rewrite (history_execAll gs initialState []); [|reflexivity].
      rewrite app_nil_r. reflexivity. }
    split; [exact H|]. rewrite H. apply firstn_le_length.
Qed.

Lemma history_keeps_five_most_recent_witness :
  history
    (execAll [SegBaseFulfilled "a"; SegEditFulfilled "b"; SegVariantRejected 2;
              SegBaseFulfilled "c"; SegEditFulfilled "d"; SegReset;
              SegBaseFulfilled "e"; SegEditFulfilled "f"]
             initialState) =
  ["f"; "e"; "d"; "c"; "b"].
Proof.
  destruct history_keeps_five_most_recent as [_ [_ H]].
  destruct (H [SegBaseFulfilled "a"; SegEditFulfilled "b"; SegVariantRejected 2;
               SegBaseFulfilled "c"; SegEditFulfilled "d"; SegReset;
               SegBaseFulfilled "e"; SegEditFulfilled "f"]) as [Heq _].
  rewrite Heq. reflexivity.
Defined.

End AppFacts.

(** ** Live Session Orchestrator *)

Module LiveChatFacts.

Import LiveChat.

Lemma ForallOrdPairs_pick {A} (R : A -> A -> Prop) (l1 l2 l3 : list A) (x y : A) :
  ForallOrdPairs R (l1 ++ x :: l2 ++ y :: l3) -> R x y.
Proof.
  induction l1 as [|z l1 IH]; simpl; intros H.
  - inversion H as [|? ? Hall _]; subst.
    rewrite Forall_forall in Hall. apply Hall.
    apply in_or_app. right. left. reflexivity.
  - inversion H; subst. apply IH. assumption.
Qed.

Lemma rationalSeconds_laws : NumberLaws rationalSeconds.
Proof.
  constructor; simpl.
  - intros a b. rewrite !Qle_bool_iff.
    destruct (Qlt_le_dec a b) as [H|H]; [left; apply Qlt_le_weak; exact H|right; exact H].
  - intros a b c. rewrite !Qle_bool_iff. apply Qle_trans.
  - intros x d. rewrite !Qle_bool_iff. intros H.
    rewrite <- (Qplus_0_r x) at 1.
    apply Qplus_le_compat; [apply Qle_refl | exact H].
Qed.

Section PlaybackFacts.

Variable K : Numbers.
Hypothesis laws : NumberLaws K.

Lemma leb_refl (a : num K) : leb K a a = true.
Proof. destruct (leb_total laws a a); assumption. Qed.

Lemma Math_max_ge_left (a b : num K) : leb K a (Math_max K a b) = true.
Proof.
  unfold Math_max. destruct (leb K a b) eqn:E; [exact E | apply leb_refl].
Qed.

Lemma job_keeps_invariant (s s' : Session K) (j : Job K) :
  watermarkInvariant s ->
  Forall (@nonNegative K) (awaited s) ->
  durationsNonNegative [j] = true ->
  job s j = Some s' ->
  watermarkInvariant s' /\
  Forall (@nonNegative K) (awaited s') /\
  leb K (nextStartTime s) (nextStartTime s') = true.
Proof.
  intros [Hend Hord] Haw Hdur Hjob.
  destruct j as [msg|]; simpl in Hjob, Hdur.
  - injection Hjob as <-. unfold onmessage.
    destruct (audio msg) as [buffer|];
      [|split; [split; assumption|]; split; [assumption | apply leb_refl]].
    destruct (hasOutputContext msg);
      [|split; [split; assumption|]; split; [assumption | apply leb_refl]].
    rewrite andb_true_r in Hdur.
    split; [split|split]; simpl.
    + rewrite Forall_forall in Hend |- *. intros a Ha.
      apply (leb_trans laws _ (nextStartTime s)); [apply Hend; exact Ha|].
      apply Math_max_ge_left.
    + exact Hord.
    + apply Forall_app. split; [exact Haw|]. constructor; [exact Hdur | constructor].
    + apply Math_max_ge_left.
  - unfold afterDecode in Hjob.
    destruct (awaited s) as [|buffer rest]; [discriminate|].
    injection Hjob as <-.
    inversion Haw as [|? ? Hb Hrest]; subst.
    assert (Hstep : leb K (nextStartTime s)
                      (add K (nextStartTime s) (duration buffer)) = true)
      by (apply (add_duration laws); exact Hb).
    split; [split|split]; simpl.
    + constructor; [simpl; apply leb_refl|].
      rewrite Forall_forall in Hend |- *. intros a Ha.
      apply (leb_trans laws _ (nextStartTime s)); [apply Hend; exact Ha | exact Hstep].
    + constructor; [|exact Hord]. exact Hend.
    + exact Hrest.
    + exact Hstep.
Qed.

Lemma durationsNonNegative_cons (j : Job K) (js : list (Job K)) :
  durationsNonNegative (j :: js) = true ->
  durationsNonNegative [j] = true /\ durationsNonNegative js = true.
Proof.
  destruct j as [msg|]; simpl.
  - rewrite !andb_true_iff. tauto.
  - tauto.
Qed.

Lemma jobs_keep_invariant (js : list (Job K)) (s s' : Session K) :
  watermarkInvariant s ->
  Forall (@nonNegative K) (awaited s) ->
  durationsNonNegative js = true ->
  jobs s js = Some s' ->
  watermarkInvariant s' /\
  Forall (@nonNegative K) (awaited s') /\
  leb K (nextStartTime s) (nextStartTime s') = true.
Proof.
  revert s; induction js as [|j js IH]; intros s Hinv Haw Hdur Hjobs.
  - injection Hjobs as <-.
    split; [exact Hinv|]. split; [exact Haw | apply leb_refl].
  - simpl in Hjobs. destruct (job s j) as [s1|] eqn:Hjob; [|discriminate].
    destruct (durationsNonNegative_cons j js Hdur) as [Hj Hjs].
    destruct (job_keeps_invariant s s1 j Hinv Haw Hj Hjob) as [Hinv1 [Haw1 Hle1]].
    destruct (IH s1 Hinv1 Haw1 Hjs Hjobs) as [Hinv' [Haw' Hle']].
    split; [exact Hinv'|]. split; [exact Haw'|].
    exact (leb_trans laws _ _ _ Hle1 Hle').
Qed.

Lemma jobs_app (js1 js2 : list (Job K)) (s : Session K) :
  jobs s (js1 ++ js2) =
  match jobs s js1 with
  | Some s1 => jobs s1 js2
  | None => None
  end.
Proof.
  revert s; induction js1 as [|j js1 IH]; intros s; simpl; [reflexivity|].
  destruct (job s j); [apply IH | reflexivity].
Qed.

Lemma durationsNonNegative_app (js1 js2 : list (Job K)) :
  durationsNonNegative (js1 ++ js2) = true ->
  durationsNonNegative js1 = true /\ durationsNonNegative js2 = true.
Proof.
  induction js1 as [|j js1 IH]; simpl; [tauto|].
  destruct j as [msg|]; [|exact IH].
  rewrite !andb_true_iff. tauto.
Qed.

(** The playbacks come in the order of arrival. *)
Lemma jobs_keep_arrival_order (js : list (Job K)) (s s' : Session K) :
  jobs s js = Some s' ->
  (map (@playDuration K) (schedule s') ++ map (@duration K) (awaited s') =
   (map (@playDuration K) (schedule s) ++ map (@duration K) (awaited s)) ++
   map (@duration K) (arrivals js))%list.
Proof.
  revert s; induction js as [|j js IH]; intros s Hjobs.
  - injection Hjobs as <-. simpl. rewrite app_nil_r. reflexivity.
  - simpl in Hjobs. destruct (job s j) as [s1|] eqn:Hjob; [|discriminate].
    rewrite (IH s1 Hjobs). clear IH Hjobs.
    destruct j as [msg|]; simpl in Hjob.
    + injection Hjob as <-. unfold onmessage. simpl.
      destruct (audio msg) as [buffer|]; [|reflexivity].
      destruct (hasOutputContext msg); [|reflexivity].
      unfold schedule. simpl. rewrite map_app. simpl.
      rewrite <- !app_assoc. reflexivity.
    + unfold afterDecode in Hjob.
      destruct (awaited s) as [|buffer rest]; [discriminate|].
      injection Hjob as <-. unfold schedule. simpl.
      rewrite map_app. simpl. rewrite <- !app_assoc. reflexivity.
Qed.

(** Handled one by one, the messages never leave a job without effect. *)
Lemma oneByOne_runs (msgs : list (ServerMessage K)) (s : Session K) :
  awaited s = [] ->
  exists s', jobs s (oneByOne msgs) = Some s' /\ awaited s' = [].
Proof.
  revert s; induction msgs as [|msg msgs IH]; intros s Haw.
  - exists s. split; [reflexivity | exact Haw].
  - simpl. destruct (audio msg) as [buffer|] eqn:Ha.
    + destruct (hasOutputContext msg) eqn:Hc; simpl; unfold onmessage;
        rewrite Ha, Hc.
      * unfold afterDecode. simpl. rewrite Haw. simpl. apply IH. reflexivity.
      * apply IH. exact Haw.
    + simpl. unfold onmessage. rewrite Ha. apply IH. exact Haw.
Qed.

(** C7.  Over any numbers whose order is total and transitive and to which a
    duration that is not negative can be added without going back: along
    the jobs of a session that starts with the watermark at zero, the
    watermark never decreases; the playbacks are started in the order in
    which their chunks arrived; and of two playbacks the later one starts no
    earlier than the start of the earlier one plus its duration.  Messages
    handled one by one always run to the end. *)
Theorem playback_is_fifo
  (js1 js2 : list (Job K)) (s1 s2 : Session K) :
  durationsNonNegative (js1 ++ js2) = true ->
  jobs (initialSession K) js1 = Some s1 ->
  jobs s1 js2 = Some s2 ->
  leb K (nextStartTime s1) (nextStartTime s2) = true /\
  (map (@playDuration K) (schedule s2) ++ map (@duration K) (awaited s2) =
   map (@duration K) (arrivals (js1 ++ js2)))%list /\
  (forall earlier a between b later,
      schedule s2 = (earlier ++ a :: between ++ b :: later)%list ->
      leb K (add K (startTime a) (playDuration a)) (startTime b) = true) /\
  (forall msgs, exists s', jobs (initialSession K) (oneByOne msgs) = Some s').
Proof.
  intros Hdur Hjobs1 Hjobs2.
  destruct (durationsNonNegative_app js1 js2 Hdur) as [Hdur1 Hdur2].
  assert (Hinit : watermarkInvariant (initialSession K))
    by (split; constructor).
  destruct (jobs_keep_invariant js1 (initialSession K) s1 Hinit
              (Forall_nil _) Hdur1 Hjobs1) as [Hinv1 [Haw1 _]].
  destruct (jobs_keep_invariant js2 s1 s2 Hinv1 Haw1 Hdur2 Hjobs2)
    as [[_ Hord] [_ Hle]].
  split; [exact Hle|]. split; [|split].
  - assert (Hall : jobs (initialSession K) (js1 ++ js2) = Some s2)
      by (rewrite jobs_app, Hjobs1; exact Hjobs2).
    rewrite (jobs_keep_arrival_order (js1 ++ js2) (initialSession K) s2 Hall).
    reflexivity.
  - intros earlier a between b later Hsched.
    unfold schedule in Hsched.
    apply (f_equal (@rev _)) in Hsched. rewrite rev_involutive in Hsched.
    rewrite Hsched in Hord.
    rewrite rev_app_distr in Hord. simpl in Hord.
    rewrite rev_app_distr in Hord. simpl in Hord.
    rewrite <- !app_assoc in Hord. simpl in Hord.
    exact (ForallOrdPairs_pick _ _ _ _ _ _ Hord).
  - intros msgs.
    destruct (oneByOne_runs msgs (initialSession K) eq_refl) as [s' [Hs' _]].
    exists s'. exact Hs'.
Qed.

End PlaybackFacts.

Lemma playback_is_fifo_witness :
  exists s2,
    jobs (initialSession rationalSeconds) twoChunks = Some s2 /\
    schedule s2 =
      [mkPlayback rationalSeconds (1 # 10)%Q (1 # 2)%Q;
       mkPlayback rationalSeconds ((1 # 10) + (1 # 2))%Q (1 # 4)%Q] /\
    Qle_bool ((1 # 10) + (1 # 2))%Q ((1 # 10) + (1 # 2))%Q = true.
Proof.
  eexists. split; [reflexivity|]. split; [reflexivity|].
  destruct (playback_is_fifo rationalSeconds rationalSeconds_laws
              [] twoChunks (initialSession rationalSeconds) _
              eq_refl eq_refl eq_refl) as [_ [_ [Hfifo _]]].
  exact (Hfifo [] _ [] _ [] eq_refl).
Defined.

End LiveChatFacts.

(** ** Strings *)

Module StringFacts.

Lemma append_nil_r (s : string) : s ++ "" = s.
Proof. induction s as [|c s IH]; simpl; [reflexivity | rewrite IH; reflexivity]. Qed.

Lemma append_assoc (a b c : string) : (a ++ b) ++ c = a ++ (b ++ c).
Proof. induction a as [|x a IH]; simpl; [reflexivity | rewrite IH; reflexivity]. Qed.

Lemma length_append (a b : string) :
  String.length (a ++ b) = String.length a + String.length b.
Proof. induction a as [|x a IH]; simpl; [reflexivity | rewrite IH; reflexivity]. Qed.

End StringFacts.

(** ** Upload Intake, further properties *)

Module UploadMoreFacts.

Import Upload UploadFacts.

Local Open Scope N_scope.

Lemma Math_round_div_shrinks (s l m : N) :
  0 < l -> m <= l -> Math_round_div (s * m) l <= s.
Proof.
  intros Hl Hm.
  destruct (Math_round_div_bounds (s * m) l Hl) as [Hle _].
  set (q := Math_round_div (s * m) l) in *.
  destruct (N.le_gt_cases q s) as [Hq|Hq]; [exact Hq|].
  exfalso.
  assert (H1 : (s + 1) * l <= q * l) by (apply N.mul_le_mono_r; lia).
  assert (H2 : s * m <= s * l) by (apply N.mul_le_mono_l; exact Hm).
  lia.
Qed.

Lemma Math_round_div_zero (a b : N) :
  0 < b -> (Math_round_div a b = 0 <-> 2 * a < b).
Proof.
  intros Hb. unfold Math_round_div.
  rewrite N.div_small_iff by lia. lia.
Qed.

Lemma resize_sides (img : Dimensions) (maxSize : N) :
  width (resizeDimensions img maxSize) <= width img /\
  height (resizeDimensions img maxSize) <= height img /\
  (height img < width img ->
   height (resizeDimensions img maxSize) <= width (resizeDimensions img maxSize)) /\
  (width img <= height img ->
   width (resizeDimensions img maxSize) <= height (resizeDimensions img maxSize)).
Proof.
  unfold resizeDimensions. destruct img as [w h]. cbn [width height].
  destruct (N.ltb_spec h w) as [Hhw|Hwh].
  - destruct (N.ltb_spec maxSize w) as [Hm|Hm]; cbn [width height].
    + assert (Hw : 0 < w) by lia.
      pose proof (Math_round_div_shrinks h w maxSize Hw ltac:(lia)) as H1.
      pose proof (Math_round_div_le h w maxSize Hw ltac:(lia)) as H2.
      repeat split; lia.
    + repeat split; lia.
  - destruct (N.ltb_spec maxSize h) as [Hm|Hm]; cbn [width height].
    + assert (Hh : 0 < h) by lia.
      pose proof (Math_round_div_shrinks w h maxSize Hh ltac:(lia)) as H1.
      pose proof (Math_round_div_le w h maxSize Hh Hwh) as H2.
      repeat split; lia.
    + repeat split; lia.
Qed.

Lemma resize_fits (img : Dimensions) (maxSize : N) :
  longerSide (resizeDimensions img maxSize) <= maxSize.
Proof.
  destruct (N.le_gt_cases (longerSide img) maxSize) as [Hs|Hb].
  - rewrite (resizeDimensions_small img maxSize Hs). exact Hs.
  - destruct (resizeDimensions_large img maxSize Hb) as [-> _].
    apply N.le_refl.
Qed.

(** X1.  Whatever the image and the maximum size, both sides of the resized
    image are at most the maximum size, and neither side is larger than it
    was: the resize never enlarges. *)
Theorem resize_fits_and_never_enlarges (img : Dimensions) (maxSize : N) :
  width (resizeDimensions img maxSize) <= maxSize /\
  height (resizeDimensions img maxSize) <= maxSize /\
  width (resizeDimensions img maxSize) <= width img /\
  height (resizeDimensions img maxSize) <= height img.
Proof.
  pose proof (resize_fits img maxSize) as Hfit. unfold longerSide in Hfit.
  destruct (resize_sides img maxSize) as [Hw [Hh _]].
  repeat split; try assumption; lia.
Qed.

(** X2.  Resizing is idempotent: an image that went through the resize is
    left as it is by a second resize with the same maximum size. *)
Theorem resize_is_idempotent (img : Dimensions) (maxSize : N) :
  resizeDimensions (resizeDimensions img maxSize) maxSize =
  resizeDimensions img maxSize.
Proof. apply resizeDimensions_small. apply resize_fits. Qed.

(** X3.  The resize keeps the orientation: a landscape image does not become
    taller than wide, and a portrait or square image does not become wider
    than tall. *)
Theorem resize_keeps_orientation (img : Dimensions) (maxSize : N) :
  (height img < width img ->
   height (resizeDimensions img maxSize) <= width (resizeDimensions img maxSize)) /\
  (width img <= height img ->
   width (resizeDimensions img maxSize) <= height (resizeDimensions img maxSize)).
Proof. destruct (resize_sides img maxSize) as [_ [_ H]]. exact H. Qed.

Lemma resize_keeps_orientation_witness :
  height (resizeDimensions (mkDimensions 4000 3000) 1024) <=
  width (resizeDimensions (mkDimensions 4000 3000) 1024).
Proof.
  destruct (resize_keeps_orientation (mkDimensions 4000 3000) 1024) as [H _].
  apply H. reflexivity.
Defined.

(** X4.  When an image is downscaled, its shorter side becomes zero exactly
    when the image is more than twice the maximum size times as long as it
    is short; the canvas then has no area. *)
Theorem resize_collapses_thin_images (img : Dimensions) (maxSize : N) :
  maxSize < longerSide img ->
  (shorterSide (resizeDimensions img maxSize) = 0 <->
   2 * (shorterSide img * maxSize) < longerSide img).
Proof.
  unfold resizeDimensions, longerSide, shorterSide.
  destruct img as [w h]. cbn [width height]. intros Hbig.
  destruct (N.ltb_spec h w) as [Hhw|Hwh].
  - destruct (N.ltb_spec maxSize w) as [Hm|Hm]; [|lia]. cbn [width height].
    assert (Hw : 0 < w) by lia.
    pose proof (Math_round_div_le h w maxSize Hw ltac:(lia)) as Hr.
    pose proof (Math_round_div_zero (h * maxSize) w Hw) as Hz.
    rewrite (N.min_r _ _ Hr), (N.min_r w h), (N.max_l w h) by lia.
    exact Hz.
  - destruct (N.ltb_spec maxSize h) as [Hm|Hm]; [|lia]. cbn [width height].
    assert (Hh : 0 < h) by lia.
    pose proof (Math_round_div_le w h maxSize Hh Hwh) as Hr.
    pose proof (Math_round_div_zero (w * maxSize) h Hh) as Hz.
    rewrite (N.min_l _ _ Hr), (N.min_l w h), (N.max_r w h) by lia.
    exact Hz.
Qed.

Lemma resize_collapses_thin_images_witness :
  shorterSide (resizeDimensions (mkDimensions 4000 1) 1024) = 0.
Proof.
  apply (resize_collapses_thin_images (mkDimensions 4000 1) 1024); reflexivity.
Defined.

End UploadMoreFacts.

(** ** Data URLs *)

Module DataUrlFacts.

Import DataUrl StringFacts.

Lemma startsWith_append (p x : string) : startsWith p (p ++ x) = true.
Proof.
  induction p as [|a p IH]; simpl; [reflexivity|].
  rewrite Ascii.eqb_refl. exact IH.
Qed.

Lemma startsWith_split (p s : string) :
  startsWith p s = true -> exists rest, s = p ++ rest.
Proof.
  revert s; induction p as [|a p IH]; intros s H; simpl in H.
  - exists s. reflexivity.
  - destruct s as [|b s]; [discriminate|].
    apply andb_true_iff in H. destruct H as [Hab Hp].
    apply Ascii.eqb_eq in Hab. subst b.
    destruct (IH s Hp) as [rest ->]. exists rest. reflexivity.
Qed.

Lemma allChars_append (f : ascii -> bool) (a b : string) :
  allChars f (a ++ b) = allChars f a && allChars f b.
Proof.
  induction a as [|c a IH]; simpl; [reflexivity|].
  rewrite IH. apply andb_assoc.
Qed.

Lemma plain_notComma (s : string) :
  allChars plainChar s = true -> allChars notComma s = true.
Proof.
  induction s as [|c s IH]; simpl; [reflexivity|].
  unfold plainChar. rewrite !andb_true_iff. intros [[[[Hc _] _] _] Hs].
  split; [exact Hc | exact (IH Hs)].
Qed.

Lemma afterComma_none (s : string) :
  allChars notComma s = true -> afterComma s = None.
Proof.
  induction s as [|c s IH]; simpl; [reflexivity|].
  unfold notComma at 1. rewrite andb_true_iff, negb_true_iff.
  intros [-> Hs]. exact (IH Hs).
Qed.

Lemma afterComma_first (p x : string) :
  allChars notComma p = true -> afterComma (p ++ "," ++ x) = Some x.
Proof.
  induction p as [|c p IH]; simpl; [reflexivity|].
  unfold notComma at 1. rewrite andb_true_iff, negb_true_iff.
  intros [-> Hp]. exact (IH Hp).
Qed.

Lemma beforeComma_all (a : string) :
  allChars notComma a = true -> beforeComma a = a.
Proof.
  induction a as [|c a IH]; simpl; [reflexivity|].
  unfold notComma at 1. rewrite andb_true_iff, negb_true_iff.
  intros [-> Ha]. rewrite (IH Ha). reflexivity.
Qed.

Lemma beforeComma_first (a x : string) :
  allChars notComma a = true -> beforeComma (a ++ "," ++ x) = a.
Proof.
  induction a as [|c a IH]; simpl; [reflexivity|].
  unfold notComma at 1. rewrite andb_true_iff, negb_true_iff.
  intros [-> Ha]. exact (f_equal (String c) (IH Ha)).
Qed.

Lemma atLineTerminator_plain (c : ascii) (s : string) :
  plainChar c = true -> atLineTerminator (String c s) = false.
Proof.
  unfold plainChar, atLineTerminator, LF, CR, LS, PS. cbn [startsWith].
  rewrite !andb_true_iff, !negb_true_iff. intros [[[_ H10] H13] H226].
  rewrite (Ascii.eqb_sym (ascii_of_nat 10) c), H10,
    (Ascii.eqb_sym (ascii_of_nat 13) c), H13,
    (Ascii.eqb_sym (ascii_of_nat 226) c), H226.
  reflexivity.
Qed.

Lemma line_plain (m x : string) :
  allChars plainChar m = true -> line (m ++ x) = m ++ line x.
Proof.
  induction m as [|c m IH]; intros H; [reflexivity|].
  simpl in H. apply andb_true_iff in H. destruct H as [Hc Hm].
  change (line (String c (m ++ x)) =  String c (m ++ line x)).
  cbn [line]. rewrite (atLineTerminator_plain c (m ++ x) Hc).
  rewrite (IH Hm). reflexivity.
Qed.

Lemma line_allChars (f : ascii -> bool) (s : string) :
  allChars f s = true -> allChars f (line s) = true.
Proof.
  induction s as [|c s IH]; intros H; [reflexivity|].
  cbn [line]. destruct (atLineTerminator (String c s)); [reflexivity|].
  simpl in H |- *. apply andb_true_iff in H. destruct H as [Hc Hs].
  rewrite Hc, (IH Hs). reflexivity.
Qed.

Lemma drop_allChars (f : ascii -> bool) (n : nat) (s : string) :
  allChars f s = true -> allChars f (drop n s) = true.
Proof.
  revert s; induction n as [|n IH]; intros s H; [destruct s; exact H|].
  destruct s as [|c s]; [exact H|].
  simpl in H |- *. apply andb_true_iff in H. destruct H as [_ Hs].
  exact (IH s Hs).
Qed.

Lemma lastOccurrence_none (s : string) :
  allChars notComma s = true -> lastOccurrence ";base64," s = None.
Proof.
  induction s as [|c s IH]; intros H; [reflexivity|].
  cbn [lastOccurrence].
  assert (Hs : allChars notComma s = true).
  { simpl in H. apply andb_true_iff in H. tauto. }
  rewrite (IH Hs).
  destruct (startsWith ";base64," (String c s)) eqn:E; [|reflexivity].
  exfalso. destruct (startsWith_split _ _ E) as [rest Hrest].
  rewrite Hrest, allChars_append in H. discriminate H.
Qed.

Lemma lastOccurrence_here (d : string) :
  allChars notComma d = true ->
  lastOccurrence ";base64," (";base64," ++ d) = Some 0.
Proof.
  intros H. pose proof (lastOccurrence_none d H) as Hd.
  simpl. destruct d as [|c d].
  - reflexivity.
  - cbn [lastOccurrence] in Hd |- *.
    destruct (lastOccurrence ";base64," d); [discriminate|].
    destruct (startsWith ";base64," (String c d)); [discriminate|].
    reflexivity.
Qed.

Lemma lastOccurrence_after (m d : string) :
  allChars notComma d = true ->
  lastOccurrence ";base64," (m ++ ";base64," ++ d) = Some (String.length m).
Proof.
  intros H. induction m as [|c m IH].
  - exact (lastOccurrence_here d H).
  - change (lastOccurrence ";base64," (String c (m ++ ";base64," ++ d)) =
            Some (S (String.length m))).
    cbn [lastOccurrence]. rewrite IH. reflexivity.
Qed.

Lemma take_append (m x : string) : take (String.length m) (m ++ x) = m.
Proof.
  induction m as [|c m IH]; simpl; [destruct x; reflexivity|].
  rewrite IH. reflexivity.
Qed.

Lemma matchMimeType_dataUrl (mime data : string) :
  allChars plainChar mime = true ->
  allChars notComma data = true ->
  matchMimeType ("data:" ++ mime ++ ";base64," ++ data) = Some mime.
Proof.
  intros Hm Hd.
  change ("data:" ++ mime ++ ";base64," ++ data)
    with (String "d" ("ata:" ++ mime ++ ";base64," ++ data)).
  cbn [matchMimeType].
  change (String "d" ("ata:" ++ mime ++ ";base64," ++ data))
    with ("data:" ++ (mime ++ ";base64," ++ data)).
  rewrite startsWith_append.
  change (drop 5 ("data:" ++ (mime ++ ";base64," ++ data)))
    with (mime ++ ";base64," ++ data).
  rewrite (line_plain mime _ Hm).
  change (line (";base64," ++ data)) with (";base64," ++ line data).
  rewrite (lastOccurrence_after mime (line data) (line_allChars notComma data Hd)).
  rewrite take_append. reflexivity.
Qed.

Lemma matchMimeType_none (s : string) :
  allChars notComma s = true -> matchMimeType s = None.
Proof.
  induction s as [|c s IH]; intros H; [reflexivity|].
  assert (Hs : allChars notComma s = true).
  { simpl in H. apply andb_true_iff in H. tauto. }
  cbn [matchMimeType]. rewrite (IH Hs).
  destruct (startsWith "data:" (String c s)); [|reflexivity].
  rewrite lastOccurrence_none; [reflexivity|].
  apply line_allChars. apply drop_allChars. exact H.
Qed.

Lemma gateway_url_reads_back_parts (mime data : string) :
  allChars plainChar mime = true ->
  allChars notComma data = true ->
  base64Data ("data:" ++ mime ++ ";base64," ++ data) = Some data /\
  mimeType ("data:" ++ mime ++ ";base64," ++ data) =
    (if mime =? "" then "image/jpeg" else mime).
Proof.
  intros Hm Hd. split.
  - unfold base64Data.
    assert (Hp : allChars notComma ("data:" ++ mime ++ ";base64") = true).
    { rewrite !allChars_append, (plain_notComma mime Hm). reflexivity. }
    replace ("data:" ++ mime ++ ";base64," ++ data)
      with (("data:" ++ mime ++ ";base64") ++ "," ++ data)
      by (rewrite !append_assoc; reflexivity).
    rewrite (afterComma_first _ data Hp). simpl.
    rewrite (beforeComma_all data Hd). reflexivity.
  - unfold mimeType. rewrite (matchMimeType_dataUrl mime data Hm Hd).
    reflexivity.
Qed.

(** X5.  A data URL as the Gateway builds it, from a MIME type and base64
    data that hold no comma (and, for the MIME type, no line terminator), is
    read back by the handlers into the same data and the same MIME type;
    an empty MIME type reads back as image/jpeg. *)
Theorem gateway_url_reads_back (mime data : string) :
  allChars plainChar mime = true ->
  allChars notComma data = true ->
  Gateway.dataUrl (Gateway.mkInlineData (Some data) (Some mime)) =
    "data:" ++ mime ++ ";base64," ++ data /\
  base64Data ("data:" ++ mime ++ ";base64," ++ data) = Some data /\
  mimeType ("data:" ++ mime ++ ";base64," ++ data) =
    (if mime =? "" then "image/jpeg" else mime).
Proof.
  intros Hm Hd. split; [reflexivity|].
  exact (gateway_url_reads_back_parts mime data Hm Hd).
Qed.

Lemma gateway_url_reads_back_witness :
  base64Data "data:image/png;base64,QUJD" = Some "QUJD" /\
  mimeType "data:image/png;base64,QUJD" = "image/png".
Proof.
  destruct (gateway_url_reads_back "image/png" "QUJD" eq_refl eq_refl)
    as [_ [Hdata Hmime]].
  split; [exact Hdata | exact Hmime].
Defined.

(** X6.  A slot content without a comma, such as one of the two markers,
    reads as no data at all and as MIME type image/jpeg; and in a string with
    two commas the data stops at the second comma. *)
Theorem url_without_comma_has_no_data :
  (forall s,
      allChars notComma s = true ->
      base64Data s = None /\ mimeType s = "image/jpeg") /\
  (forall p a rest,
      allChars notComma p = true ->
      allChars notComma a = true ->
      base64Data (p ++ "," ++ a ++ "," ++ rest) = Some a).
Proof.
  split.
  - intros s H. unfold base64Data, mimeType.
    rewrite (afterComma_none s H), (matchMimeType_none s H).
    split; reflexivity.
  - intros p a rest Hp Ha. unfold base64Data.
    rewrite (afterComma_first p _ Hp). cbn [option_map].
    rewrite (beforeComma_first a rest Ha). reflexivity.
Qed.

Lemma url_without_comma_has_no_data_witness :
  base64Data "loading" = None /\ mimeType "loading" = "image/jpeg".
Proof.
  destruct url_without_comma_has_no_data as [H _].
  apply (H "loading"). reflexivity.
Defined.

End DataUrlFacts.

(** ** The requests *)

Module RequestFacts.

Import JS App AppInvariants AppFacts AppMore Request.

Lemma filterNotNull_position {A} (l : list (option A)) (i : nat) (x : A) :
  nth_error l i = Some (Some x) ->
  nth_error (filterNotNull l) (occupiedBefore i l) = Some x /\
  occupiedBefore i l <= i.
Proof.
  unfold occupiedBefore.
  revert i; induction l as [|y l IH]; intros i H.
  - destruct i; discriminate.
  - destruct i as [|i].
    + simpl in H. injection H as ->. simpl. split; [reflexivity | lia].
    + simpl in H. destruct (IH i H) as [Hnth Hle].
      destruct y as [a|]; simpl; split; try exact Hnth; lia.
Qed.

Lemma uploaded_nonempty (s : State) :
  uploadedImages s <> [] ->
  generateBaseImage s = CallTryOn (uploadedImages s) (fullPrompt s).
Proof.
  unfold generateBaseImage. destruct (uploadedImages s); [congruence|].
  reflexivity.
Qed.

(** X7.  With at least one uploaded image the base request carries every
    uploaded image, in tile order, followed by one text part that holds the
    prompt.  The image of tile i is the image part whose position is the
    number of occupied tiles before i, which is less than i as soon as an
    earlier tile is empty. *)
Theorem base_request_sends_occupied_tiles (s : State) :
  uploadedImages s <> [] ->
  ofCall (generateBaseImage s) =
    GenerateContent "gemini-2.5-flash"
      (imageParts (uploadedImages s) ++ [TextPart (tryOnPrompt (fullPrompt s))])
      ["IMAGE"] /\
  (forall i img,
      nth_error (originalImages s) i = Some (Some img) ->
      nth_error (imageParts (uploadedImages s))
                (occupiedBefore i (originalImages s)) =
        Some (InlineDataPart (Some (base64 img)) (mimeType img)) /\
      occupiedBefore i (originalImages s) <= i).
Proof.
  intros Hne. rewrite (uploaded_nonempty s Hne). split; [reflexivity|].
  intros i img Hi.
  destruct (filterNotNull_position (originalImages s) i img Hi) as [Hnth Hle].
  split; [|exact Hle].
  unfold imageParts, uploadedImages. rewrite nth_error_map, Hnth. reflexivity.
Qed.

Lemma base_request_sends_occupied_tiles_witness :
  nth_error (imageParts (uploadedImages secondTileOnly)) 0 =
    Some (InlineDataPart (Some "QUJD") "image/png").
Proof.
  destruct (base_request_sends_occupied_tiles secondTileOnly) as [_ H].
  - discriminate.
  - destruct (H 1 (mkUploadedImage "QUJD" "image/png") eq_refl) as [Hnth _].
    exact Hnth.
Defined.

Lemma faceSourceImage_none (s : State) :
  faceSourceImage s = None <->
  faceSourceIndex s = None \/
  exists i, faceSourceIndex s = Some i /\ slotOccupied s i = false.
Proof.
  unfold faceSourceImage, slotOccupied.
  destruct (faceSourceIndex s) as [i|]; split.
  - intros H. right. exists i. rewrite H. split; reflexivity.
  - intros [H|[j [Hj Hocc]]]; [discriminate|].
    injection Hj as <-.
    destruct (get (originalImages s) i); [discriminate | reflexivity].
  - intros _. left. reflexivity.
  - intros _. reflexivity.
Qed.

(** X8.  When handleEdit issues its call, the request has the image to edit
    as first part and the prompt as text.  The face image is sent as a second
    image part, and the face instruction is appended to the prompt, exactly
    when the face-source index points at a tile that holds an image; with no
    index, or an index of an empty tile, the request is the plain edit. *)
Theorem edit_request_carries_face (s : State) (img : string) :
  imageToEdit s = Some img -> img <> "" -> editPrompt s <> "" ->
  exists c,
    snd (handleEdit s) = Some c /\
    (faceSourceImage s = None ->
     ofCall c =
       GenerateContent "gemini-2.5-flash"
         [InlineDataPart (DataUrl.base64Data img) (DataUrl.mimeType img);
          TextPart (editPrompt s)]
         ["IMAGE"]) /\
    (forall face,
        faceSourceImage s = Some face ->
        ofCall c =
          GenerateContent "gemini-2.5-flash"
            [InlineDataPart (DataUrl.base64Data img) (DataUrl.mimeType img);
             InlineDataPart (Some (base64 face)) (mimeType face);
             TextPart (editPrompt s ++ faceInstruction)]
            ["IMAGE"]) /\
    (faceSourceImage s = None <->
     faceSourceIndex s = None \/
     exists i, faceSourceIndex s = Some i /\ slotOccupied s i = false).
Proof.
  intros Himg Hne Hprompt.
  rewrite (handleEdit_proceeds s img Himg Hne Hprompt).
  eexists. split; [reflexivity|]. cbn [ofCall]. split; [|split].
  - intros ->. reflexivity.
  - intros face ->. reflexivity.
  - apply faceSourceImage_none.
Qed.

Lemma edit_request_carries_face_witness :
  exists c,
    snd (handleEdit fourImagesWithPrompt) = Some c /\
    ofCall c =
      GenerateContent "gemini-2.5-flash"
        [InlineDataPart (Some "QUJD") "image/png"; TextPart "add a hat"]
        ["IMAGE"].
Proof.
  destruct (edit_request_carries_face fourImagesWithPrompt pngImage eq_refl)
    as [c [Hc [Hplain _]]].
  - discriminate.
  - discriminate.
  - exists c. split; [exact Hc|]. rewrite (Hplain eq_refl). reflexivity.
Defined.

(** X9.  In lookbook mode, when the base call returns a data URL built from
    a MIME type and base64 data (non-empty MIME type, no comma, no line
    terminator), the three variant requests are issued with that very data
    and MIME type as their only image, the variation prompt as their text,
    and no face source. *)
Theorem variant_requests_carry_base_image
  (s : State) (o : Gateway.ApiOutcome) (mime data : string) :
  missingInput s = false ->
  isLookbookMode s = true ->
  DataUrl.allChars DataUrl.plainChar mime = true ->
  mime <> "" ->
  DataUrl.allChars DataUrl.notComma data = true ->
  gatewayResult (generateBaseImage s) o =
    Return ("data:" ++ mime ++ ";base64," ++ data) ->
  exists m,
    step (handleGenerate s) (BaseSettled o) = Some m /\
    map ofCall (tl (calls m)) =
      repeat (GenerateContent "gemini-2.5-flash"
                [InlineDataPart (Some data) mime; TextPart variationPrompt]
                ["IMAGE"]) 3.
Proof.
  intros Hvalid Hlb Hm Hne Hd Hok.
  destruct (step (handleGenerate s) (BaseSettled o)) as [m|] eqn:Hstep.
  - exists m. split; [reflexivity|].
    destruct (afterBase_established s o _ m Hvalid Hok Hstep)
      as [_ [_ [_ Hcalls]]].
    rewrite Hcalls. unfold variantCount. rewrite Hlb.
    cbn [tl seq map ofCall repeat]. unfold editImage, editParts.
    destruct (DataUrlFacts.gateway_url_reads_back_parts mime data Hm Hd)
      as [-> ->].
    apply String.eqb_neq in Hne. rewrite Hne. reflexivity.
  - exfalso. revert Hstep.
    rewrite (handleGenerate_starts s Hvalid). unfold step. simpl.
    rewrite Hok, Hlb. discriminate.
Qed.

Lemma variant_requests_carry_base_image_witness :
  exists m,
    step (handleGenerate oneUploadLookbook)
         (BaseSettled (Gateway.ApiReturned pngResponse)) = Some m /\
    map ofCall (tl (calls m)) =
      repeat (GenerateContent "gemini-2.5-flash"
                [InlineDataPart (Some "QUJD") "image/png";
                 TextPart variationPrompt]
                ["IMAGE"]) 3.
Proof.
  apply (variant_requests_carry_base_image oneUploadLookbook
           (Gateway.ApiReturned pngResponse) "image/png" "QUJD");
    try reflexivity.
  discriminate.
Defined.

End RequestFacts.

(** ** More of the orchestrator *)

Module AppMoreFacts.

Import JS App AppInvariants AppFacts AppMore.

Lemma hasImages_uploaded (s : State) :
  hasImages s = false <-> uploadedImages s = [].
Proof.
  unfold hasImages, uploadedImages.
  induction (originalImages s) as [|x l IH]; simpl; [tauto|].
  destruct x as [a|]; simpl; [split; discriminate | exact IH].
Qed.

(** X10.  The description effect settles in one run.  After it, a state with
    images never has an empty description and a state without images never
    has the initial description; so the initial description, shown while no
    image is uploaded, is erased and handleGenerate is then refused for
    missing input. *)
Theorem description_effect_settles (s : State) :
  syncDescription (syncDescription s) = syncDescription s /\
  (hasImages s = true -> modelDescription (syncDescription s) <> "") /\
  (hasImages s = false ->
   modelDescription (syncDescription s) <> INITIAL_MODEL_DESCRIPTION) /\
  (hasImages s = false ->
   modelDescription s = INITIAL_MODEL_DESCRIPTION ->
   missingInput (syncDescription s) = true).
Proof.
  unfold syncDescription.
  destruct (hasImages s) eqn:Himg; cbn [negb andb].
  - destruct (modelDescription s =? "") eqn:Hd.
    + repeat split; try discriminate.
      unfold syncDescription.
      change (hasImages (setModelDescription INITIAL_MODEL_DESCRIPTION s))
        with (hasImages s).
      rewrite Himg. reflexivity.
    + repeat split; try discriminate.
      * rewrite Himg. cbn [negb andb]. rewrite Hd. reflexivity.
      * intros _. apply String.eqb_neq. exact Hd.
  - destruct (modelDescription s =? INITIAL_MODEL_DESCRIPTION) eqn:Hd.
    + repeat split; try discriminate.
      * change (hasImages (setModelDescription "" s)) with (hasImages s).
        rewrite Himg. reflexivity.
      * intros _ _. unfold missingInput.
        change (uploadedImages (setModelDescription "" s))
          with (uploadedImages s).
        apply hasImages_uploaded in Himg. rewrite Himg. reflexivity.
    + repeat split; try discriminate.
      * rewrite Himg. cbn [negb andb]. rewrite Hd. reflexivity.
      * intros _. apply String.eqb_neq. exact Hd.
      * intros _ Heq. apply String.eqb_neq in Hd. contradiction.
Qed.

Lemma description_effect_settles_witness :
  missingInput (syncDescription initialState) = true.
Proof.
  destruct (description_effect_settles initialState) as [_ [_ [_ H]]].
  apply H; reflexivity.
Defined.

(** X11.  After a reset the description effect has nothing to do and
    handleGenerate is refused: it surfaces the validation message and issues
    no call.  The reset itself keeps the history and does not clear the
    loading and editing flags of calls still under way. *)
Theorem reset_then_generate_is_refused (s : State) :
  syncDescription (handleReset s) = handleReset s /\
  error (app (handleGenerate (handleReset s))) = Some missingInputMessage /\
  calls (handleGenerate (handleReset s)) = [] /\
  phase (handleGenerate (handleReset s)) = Settled /\
  generatedImages (handleReset s) = [] /\
  history (handleReset s) = history s /\
  isLoading (handleReset s) = isLoading s /\
  isEditing (handleReset s) = isEditing s.
Proof. repeat split. Qed.

Lemma set_nil {A} (i : nat) (v : option A) :
  set [] i v = (repeat None i ++ [v])%list.
Proof. induction i as [|i IH]; simpl; [reflexivity | rewrite IH; reflexivity]. Qed.

(** X12.  The reset does not cancel an invocation under way.  When it is
    pressed while variant i is awaited, the completion of that variant
    writes into the emptied slot list: the list then has i + 1 entries, the
    first i of them holes, the last one the slot of the variant. *)
Theorem reset_does_not_cancel_variants
  (m : Machine) (pending : list nat) (i : nat) (o : Gateway.ApiOutcome) :
  phase m = AwaitVariants pending ->
  In i pending ->
  exists m',
    step (resetDuring m) (VariantSettled i o) = Some m' /\
    generatedImages (app m') = (repeat None i ++ [variantSlot o])%list /\
    List.length (generatedImages (app m')) = S i /\
    isLoading (app m') =
      match without i pending with
      | [] => false
      | _ => isLoading (app m)
      end.
Proof.
  intros Hph Hin. destruct m as [st ph cs]. simpl in Hph. subst ph.
  unfold step, resetDuring. cbn [phase app calls].
  apply isPending_In in Hin. rewrite Hin.
  rewrite variant_callbacks_write.
  assert (Hlen : List.length (repeat (@None string) i ++ [variantSlot o]) = S i).
  { rewrite length_app, repeat_length. simpl. lia. }
  destruct (without i pending); eexists; (split; [reflexivity|]);
    cbn [app generateFinally setIsLoading setGeneratedImages handleReset
         setFaceSourceIndex setError setAspectRatio setPhotoStyle
         setModelDescription setOriginalImages generatedImages isLoading];
    (split; [exact (set_nil i (variantSlot o))|]);
    (split; [|reflexivity]);
    exact (eq_trans (f_equal (@List.length _) (set_nil i (variantSlot o))) Hlen).
Qed.

Lemma reset_does_not_cancel_variants_witness :
  exists m',
    step (resetDuring lookbookAfterBase)
         (VariantSettled 2 (Gateway.ApiReturned pngResponse)) = Some m' /\
    generatedImages (app m') = [None; None; Some pngImage].
Proof.
  destruct (reset_does_not_cancel_variants lookbookAfterBase [1; 2; 3] 2
              (Gateway.ApiReturned pngResponse) eq_refl)
    as [m' [Hstep [Hslots _]]].
  - simpl. tauto.
  - exists m'. split; [exact Hstep | exact Hslots].
Defined.

(** X13.  While a generation is under way slot 0 holds the loading marker,
    which handleEdit takes for an image: with a prompt it issues an edit call
    on the marker, and the request then carries no image data at all, under
    the MIME type image/jpeg. *)
Theorem edit_runs_on_loading_marker (s : State) :
  missingInput s = false ->
  editPrompt s <> "" ->
  snd (handleEdit (app (handleGenerate s))) =
    Some (CallEdit "loading" (editPrompt s) (faceSourceImage s)) /\
  hd_error
    (Request.inlineParts
       (Request.ofCall (CallEdit "loading" (editPrompt s) (faceSourceImage s)))) =
    Some (Request.InlineDataPart None "image/jpeg").
Proof.
  intros Hvalid Hprompt.
  split; [|destruct (faceSourceImage s); reflexivity].
  rewrite (handleGenerate_starts s Hvalid). cbn [app].
  rewrite (handleEdit_proceeds
             (setGeneratedImages
                (fun _ => if isLookbookMode s then fill 4 loading else [loading])
                (setIsLoading true (setError None s)))
             "loading").
  - reflexivity.
  - unfold imageToEdit. cbn [generatedImages setGeneratedImages].
    destruct (isLookbookMode s); reflexivity.
  - discriminate.
  - exact Hprompt.
Qed.

Lemma edit_runs_on_loading_marker_witness :
  snd (handleEdit (app (handleGenerate (setEditPrompt "add a hat" describedOnly)))) =
    Some (CallEdit "loading" "add a hat" None).
Proof.
  destruct (edit_runs_on_loading_marker (setEditPrompt "add a hat" describedOnly)
              eq_refl) as [H _].
  - discriminate.
  - exact H.
Defined.

(** X14.  renderImageItem puts an image element into every slot that holds a
    string, the two markers included: an empty slot renders nothing, a Ready
    slot renders its image, and a Loading or Failed slot renders its
    placeholder together with an image element whose source is the marker. *)
Theorem render_puts_image_for_markers (img : ImageState) (index : nat) :
  filter isImageElement (renderImageItem img index) =
    match img with
    | Some src => [ImageWithControls src index]
    | None => []
    end /\
  List.length (renderImageItem img index) =
    match slotState img with
    | Empty => 0
    | Ready _ => 1
    | Loading | Failed => 2
    end.
Proof.
  unfold renderImageItem, slotState. destruct img as [src|]; [|split; reflexivity].
  destruct (src =? "loading") eqn:Hl; destruct (src =? "error") eqn:He;
    try (split; reflexivity).
  apply String.eqb_eq in Hl. apply String.eqb_eq in He. congruence.
Qed.

(** *** The tiles *)

Lemma originalImages_exec (s : State) (g : Segment) :
  originalImages (exec s g) =
  match g with
  | SegReset => fill MAX_IMAGES None
  | SegImageUpload i img => set (originalImages s) i (Some img)
  | SegImageDelete i => set (originalImages s) i None
  | _ => originalImages s
  end.
Proof.
  destruct g; simpl; try reflexivity.
  - unfold handleGenerate.
    destruct (missingInput (setError None s)); reflexivity.
  - unfold handleEdit.
    destruct (negb (truthy (imageToEdit s)) || (editPrompt s =? ""));
      reflexivity.
  - unfold historyClick. destruct (nth_error (history s) k); reflexivity.
  - unfold handleImageDelete.
    destruct (faceSourceIndex s) as [i|]; [destruct (i =? index)%nat|];
      reflexivity.
Qed.

Lemma faceSourceIndex_exec (s : State) (g : Segment) :
  faceSourceIndex (exec s g) =
  match g with
  | SegReset => None
  | SegImageDelete i =>
      match faceSourceIndex s with
      | Some j => if (j =? i)%nat then None else Some j
      | None => None
      end
  | SegSetFaceSource i =>
      match faceSourceIndex s with
      | Some j => if (j =? i)%nat then None else Some i
      | None => Some i
      end
  | _ => faceSourceIndex s
  end.
Proof.
  destruct g; simpl; try reflexivity.
  - unfold handleGenerate.
    destruct (missingInput (setError None s)); reflexivity.
  - unfold handleEdit.
    destruct (negb (truthy (imageToEdit s)) || (editPrompt s =? ""));
      reflexivity.
  - unfold historyClick. destruct (nth_error (history s) k); reflexivity.
  - unfold handleImageDelete.
    destruct (faceSourceIndex s) as [i|] eqn:E; [destruct (i =? index)%nat|];
      cbn [faceSourceIndex setFaceSourceIndex setOriginalImages];
      try rewrite E; reflexivity.
Qed.

Lemma get_some_in_range {A} (l : list (option A)) (i : nat) (x : A) :
  get l i = Some x -> i < List.length l.
Proof.
  unfold get. intros H.
  destruct (Nat.lt_ge_cases i (List.length l)) as [Hlt|Hge]; [exact Hlt|].
  rewrite (nth_overflow l None Hge) in H. discriminate.
Qed.

Lemma slotOccupied_in_range (s : State) (i : nat) :
  slotOccupied s i = true -> i < List.length (originalImages s).
Proof.
  unfold slotOccupied.
  destruct (get (originalImages s) i) as [x|] eqn:E; [|discriminate].
  intros _. exact (get_some_in_range _ _ _ E).
Qed.

Lemma filterNotNull_length {A} (l : list (option A)) :
  List.length (filterNotNull l) <= List.length l.
Proof.
  induction l as [|x l IH]; simpl; [lia|]. destruct x; simpl; lia.
Qed.

(** Ten tiles, and a face source only on a tile that holds an image. *)
Lemma tiles_exec (s : State) (g : Segment) :
  List.length (originalImages s) = MAX_IMAGES ->
  faceSourceValid s ->
  offered s g = true ->
  List.length (originalImages (exec s g)) = MAX_IMAGES /\
  faceSourceValid (exec s g).
Proof.
  intros Hlen Hface Hoff.
  unfold faceSourceValid, slotOccupied in *.
  rewrite (originalImages_exec s g).
  setoid_rewrite (faceSourceIndex_exec s g).
  destruct g; try (split; [exact Hlen | exact Hface]).
  - split; [reflexivity | discriminate].
  - simpl in Hoff. apply Nat.ltb_lt in Hoff.
    split; [rewrite length_set_in_range by exact Hoff; exact Hlen|].
    intros i Hi. destruct (Nat.eq_dec i index) as [->|Hne].
    + rewrite get_set_same. reflexivity.
    + rewrite get_set_other by exact Hne. exact (Hface i Hi).
  - simpl in Hoff. pose proof (slotOccupied_in_range s index Hoff) as Hin.
    split; [rewrite length_set_in_range by exact Hin; exact Hlen|].
    intros i Hi. destruct (faceSourceIndex s) as [j|] eqn:Hj; [|discriminate].
    destruct (Nat.eqb_spec j index) as [->|Hne]; [discriminate|].
    injection Hi as <-.
    rewrite get_set_other by exact Hne. exact (Hface j eq_refl).
  - simpl in Hoff. unfold slotOccupied in Hoff.
    split; [exact Hlen|].
    intros i Hi. destruct (faceSourceIndex s) as [j|] eqn:Hj.
    + destruct (j =? index)%nat; [discriminate|].
      injection Hi as <-. exact Hoff.
    + injection Hi as <-. exact Hoff.
Qed.

Lemma tiles_execOffered (gs : list Segment) (s s' : State) :
  List.length (originalImages s) = MAX_IMAGES ->
  faceSourceValid s ->
  execOffered gs s = Some s' ->
  List.length (originalImages s') = MAX_IMAGES /\ faceSourceValid s'.
Proof.
  revert s; induction gs as [|g gs IH]; intros s Hlen Hface Hrun.
  - injection Hrun as <-. split; assumption.
  - simpl in Hrun. destruct (offered s g) eqn:Hoff; [|discriminate].
    destruct (tiles_exec s g Hlen Hface Hoff) as [Hlen1 Hface1].
    exact (IH (exec s g) Hlen1 Hface1 Hrun).
Qed.

(** X15.  Whatever the user does with what the tiles offer, starting from
    the mounted component, there are always exactly ten tiles, so a base
    request never carries more than ten images. *)
Theorem tiles_stay_ten (gs : list Segment) (s' : State) :
  execOffered gs initialState = Some s' ->
  List.length (originalImages s') = MAX_IMAGES /\
  List.length (uploadedImages s') <= MAX_IMAGES.
Proof.
  intros Hrun.
  destruct (tiles_execOffered gs initialState s' eq_refl) as [Hlen _];
    [discriminate | exact Hrun |].
  split; [exact Hlen|]. rewrite <- Hlen. apply filterNotNull_length.
Qed.

Lemma tiles_stay_ten_witness :
  exists s',
    execOffered tileSession initialState = Some s' /\
    List.length (uploadedImages s') <= MAX_IMAGES.
Proof.
  eexists. split; [reflexivity|].
  apply (tiles_stay_ten tileSession). reflexivity.
Defined.

(** X16.  Whatever the user does with what the tiles offer, starting from
    the mounted component, a face source that is set points at a tile that
    holds an image, so an edit then sends that image as face source. *)
Theorem face_source_points_at_image (gs : list Segment) (s' : State) (i : nat) :
  execOffered gs initialState = Some s' ->
  faceSourceIndex s' = Some i ->
  exists face,
    get (originalImages s') i = Some face /\
    faceSourceImage s' = Some face.
Proof.
  intros Hrun Hi.
  destruct (tiles_execOffered gs initialState s' eq_refl) as [_ Hface];
    [discriminate | exact Hrun |].
  specialize (Hface i Hi). unfold slotOccupied in Hface.
  unfold faceSourceImage. rewrite Hi.
  destruct (get (originalImages s') i) as [face|]; [|discriminate].
  exists face. split; reflexivity.
Qed.

Lemma face_source_points_at_image_witness :
  exists s',
    execOffered tileSession initialState = Some s' /\
    faceSourceImage s' = Some (mkUploadedImage "REVG" "image/jpeg").
Proof.
  eexists. split; [reflexivity|].
  destruct (face_source_points_at_image tileSession _ 3 eq_refl eq_refl)
    as [face [Hget Hface]].
  rewrite Hface. f_equal.
  injection Hget as <-. reflexivity.
Defined.

(** X23.  An image that a Gateway operation returns is a data URL: it is
    not empty and it is neither of the two marker strings, so the slot that
    receives it is Ready and handleEdit accepts it as the image to edit. *)
Theorem gateway_images_are_never_markers
  (c : GatewayCall) (o : Gateway.ApiOutcome) (img : string) :
  gatewayResult c o = Return img ->
  isDataUrl img = true /\
  slotState (Some img) = Ready img /\
  truthy (Some img) = true /\
  forall rest s,
    generatedImages s = Some img :: rest -> imageToEdit s = Some img.
Proof.
  intros Hok. pose proof (gatewayResult_dataUrl c o img Hok) as Hurl.
  split; [exact Hurl|]. split; [exact (dataUrl_is_ready img Hurl)|].
  split; [exact (dataUrl_truthy img Hurl)|].
  intros rest s Hs. unfold imageToEdit. rewrite Hs. reflexivity.
Qed.

Lemma gateway_images_are_never_markers_witness :
  slotState (Some pngImage) = Ready pngImage.
Proof.
  destruct (gateway_images_are_never_markers (CallEdit "" "" None)
              (Gateway.ApiReturned pngResponse) pngImage eq_refl)
    as [_ [H _]].
  exact H.
Defined.

(** *** The calls of an invocation *)

Lemma later_step_keeps_calls (m m' : Machine) (ev : Event) :
  (forall call lookbook, phase m <> AwaitBase call lookbook) ->
  step m ev = Some m' ->
  calls m' = calls m /\
  (forall call lookbook, phase m' <> AwaitBase call lookbook).
Proof.
  destruct m as [st ph cs]. unfold step. simpl. intros Hph Hstep.
  destruct ph as [call lb|pending|]; [exfalso; exact (Hph call lb eq_refl)| |].
  - destruct ev as [o|i o]; [discriminate|].
    destruct (isPending i pending); [|discriminate].
    destruct (without i pending); injection Hstep as <-; simpl;
      split; try reflexivity; intros; discriminate.
  - destruct ev; discriminate.
Qed.

Lemma later_run_keeps_calls (evs : list Event) (m m' : Machine) :
  (forall call lookbook, phase m <> AwaitBase call lookbook) ->
  run m evs = Some m' ->
  calls m' = calls m.
Proof.
  revert m; induction evs as [|ev evs IH]; intros m Hph Hrun; simpl in Hrun.
  - injection Hrun as <-. reflexivity.
  - destruct (step m ev) as [m1|] eqn:Hstep; [|discriminate].
    destruct (later_step_keeps_calls m m1 ev Hph Hstep) as [Hc Hph1].
    rewrite (IH m1 Hph1 Hrun). exact Hc.
Qed.

(** X17.  Along an invocation of handleGenerate with sufficient input, the
    base call is the first call and the only one until it completes.  Edit
    calls exist only after the base call succeeded in lookbook mode; they are
    then exactly three, all on the base image with the variation prompt and
    without a face source, and no further call is ever added. *)
Theorem variant_calls_follow_the_base
  (s : State) (evs : list Event) (m : Machine) :
  missingInput s = false ->
  run (handleGenerate s) evs = Some m ->
  calls m = [generateBaseImage s] \/
  exists o rest baseImage,
    evs = BaseSettled o :: rest /\
    gatewayResult (generateBaseImage s) o = Return baseImage /\
    isLookbookMode s = true /\
    calls m = generateBaseImage s ::
              repeat (CallEdit baseImage variationPrompt None) 3.
Proof.
  intros Hvalid Hrun.
  destruct evs as [|ev rest].
  - left. simpl in Hrun. injection Hrun as <-.
    rewrite (handleGenerate_starts s Hvalid). reflexivity.
  - simpl in Hrun.
    destruct (step (handleGenerate s) ev) as [m1|] eqn:Hstep; [|discriminate].
    assert (Hlater : forall call lookbook, phase m1 <> AwaitBase call lookbook).
    { revert Hstep. rewrite (handleGenerate_starts s Hvalid).
      unfold step. cbn [phase app calls].
      destruct ev as [o|i o]; [|discriminate].
      destruct (gatewayResult (generateBaseImage s) o);
        [destruct (isLookbookMode s)|];
        intros H; injection H as <-; intros; discriminate. }
    rewrite (later_run_keeps_calls rest m1 m Hlater Hrun).
    revert Hstep. rewrite (handleGenerate_starts s Hvalid).
    unfold step. cbn [phase app calls].
    destruct ev as [o|i o]; [|discriminate].
    destruct (gatewayResult (generateBaseImage s) o) as [baseImage|err] eqn:Hok.
    + destruct (isLookbookMode s) eqn:Hlb; intros H; injection H as <-.
      * right. exists o, rest, baseImage. repeat split. exact Hok.
      * left. reflexivity.
    + intros H; injection H as <-. left. reflexivity.
Qed.

Lemma variant_calls_follow_the_base_witness :
  exists m,
    run (handleGenerate oneUploadLookbook)
        [BaseSettled (Gateway.ApiReturned pngResponse);
         VariantSettled 2 (Gateway.ApiThrewError "503")] = Some m /\
    List.length (calls m) = 4.
Proof.
  eexists. split; [reflexivity|].
  destruct (variant_calls_follow_the_base oneUploadLookbook
              [BaseSettled (Gateway.ApiReturned pngResponse);
               VariantSettled 2 (Gateway.ApiThrewError "503")] _
              eq_refl eq_refl) as [H|[o [rest [b [_ [_ [_ H]]]]]]];
    rewrite H; [discriminate H | reflexivity].
Defined.

End AppMoreFacts.

(** ** Dictation *)

Module SpeechFacts.

Import Speech StringFacts.

Lemma collect_joined (results : list SpeechRecognitionResult)
  (interimTranscript finalTranscript : string) :
  collect results interimTranscript finalTranscript =
  (interimTranscript ++ joined isInterim results,
   finalTranscript ++ joined isFinal results).
Proof.
  revert interimTranscript finalTranscript.
  induction results as [|r results IH]; intros i f.
  - simpl. unfold joined. simpl. rewrite !append_nil_r. reflexivity.
  - simpl. unfold joined, isInterim in *. simpl.
    destruct (isFinal r); simpl; rewrite IH, append_assoc; reflexivity.
Qed.

(** X18.  The new text of a dictated field is the text the field held when
    the recording started, then the transcripts of the final results, then
    those of the interim results, both taken from resultIndex on.  Results
    before resultIndex do not count, final or not. *)
Theorem dictation_counts_from_result_index
  (textBeforeRecording : string)
  (earlier later : list SpeechRecognitionResult) :
  onresult textBeforeRecording (earlier ++ later) (List.length earlier) =
    textBeforeRecording ++ joined isFinal later ++ joined isInterim later /\
  onresult textBeforeRecording (earlier ++ later) (List.length earlier) =
    onresult textBeforeRecording later 0.
Proof.
  assert (H : forall rs,
             onresult textBeforeRecording rs 0 =
             textBeforeRecording ++ joined isFinal rs ++ joined isInterim rs).
  { intros rs. unfold onresult. cbn [skipn]. rewrite collect_joined.
    reflexivity. }
  assert (Hskip : onresult textBeforeRecording (earlier ++ later)
                    (List.length earlier) =
                  onresult textBeforeRecording later 0).
  { unfold onresult. rewrite skipn_app, skipn_all, Nat.sub_diag. reflexivity. }
  split; [rewrite Hskip; apply H | exact Hskip].
Qed.

End SpeechFacts.

(** ** The chat *)

Module ChatbotFacts.

Import JS Chatbot StringFacts.

Lemma updateLast_app (f : Message -> Message) (pre : list Message) (m : Message) :
  updateLast f (pre ++ [m]) = (pre ++ [f m])%list.
Proof.
  induction pre as [|a pre IH]; [reflexivity|].
  change ((a :: pre) ++ [m])%list with (a :: (pre ++ [m]))%list.
  cbn [updateLast]. rewrite IH.
  destruct (pre ++ [m])%list eqn:E; [|reflexivity].
  destruct pre; discriminate.
Qed.

Lemma answerText_cons (c : StreamChunk) (chunks : list StreamChunk) :
  answerText (c :: chunks) =
  (if truthy (chunkText c) then str (chunkText c) else "") ++ answerText chunks.
Proof.
  unfold answerText. cbn [filter].
  destruct (truthy (chunkText c)); reflexivity.
Qed.

Lemma answerGrounding_cons (c : StreamChunk) (chunks : list StreamChunk) :
  answerGrounding (c :: chunks) =
  (match chunkGrounding c with Some g => g | None => [] end ++
   answerGrounding chunks)%list.
Proof. reflexivity. Qed.

Lemma consume_answer (chunks : list StreamChunk) (t : string)
  (g : list GroundingChunk) (pre : list Message) :
  consume chunks t g (pre ++ [mkMessage ai t None]) =
  (t ++ answerText chunks,
   (g ++ answerGrounding chunks)%list,
   (pre ++ [mkMessage ai (t ++ answerText chunks) None])%list).
Proof.
  revert t g; induction chunks as [|c chunks IH]; intros t g.
  - unfold answerText. simpl. rewrite append_nil_r, app_nil_r. reflexivity.
  - cbn [consume]. rewrite answerText_cons, answerGrounding_cons.
    destruct (truthy (chunkText c)) eqn:Ht.
    + rewrite updateLast_app. unfold setText. cbn [sender groundingChunks].
      rewrite IH, append_assoc.
      destruct (chunkGrounding c) as [l|].
      * rewrite <- (app_assoc g l). reflexivity.
      * reflexivity.
    + rewrite IH.
      destruct (chunkGrounding c) as [l|].
      * rewrite <- (app_assoc g l). reflexivity.
      * reflexivity.
Qed.

(** X19.  handleSendMessage does nothing when the input is blank or an
    answer is streaming.  Otherwise its request holds the messages shown so
    far, in order, as user and model turns, followed once by the new input
    as a user turn; the maps tool and the position are part of the request
    exactly when a position is known. *)
Theorem chat_request_holds_history_then_input :
  (forall s o,
      blank (input s) = true \/ isStreaming s = true ->
      handleSendMessage s o = (s, None)) /\
  (forall s o,
      blank (input s) = false -> isStreaming s = false ->
      exists r,
        snd (handleSendMessage s o) = Some r /\
        contents r =
          (map toChatMessage (messages s) ++ [mkChatMessage "user" [input s]])%list /\
        Forall (fun c => role c = "user" \/ role c = "model") (contents r) /\
        latLng r = location s /\
        (tools r = None <-> location s = None)).
Proof.
  split.
  - intros s o [H|H]; unfold handleSendMessage; rewrite H;
      [|rewrite orb_true_r]; reflexivity.
  - intros s o Hb Hs. unfold handleSendMessage. rewrite Hb, Hs.
    cbn [orb snd]. eexists. split; [reflexivity|].
    cbn [getChatResponseStream contents latLng tools].
    split; [reflexivity|]. split; [|split; [reflexivity|]].
    + apply Forall_app. split.
      * apply Forall_forall. intros c Hc. apply in_map_iff in Hc.
        destruct Hc as [msg [<- _]]. unfold toChatMessage. cbn [role].
        destruct (sender msg); [left | right]; reflexivity.
      * constructor; [left; reflexivity | constructor].
    + destruct (location s); split; intros H; try discriminate; reflexivity.
Qed.

Lemma chat_request_holds_history_then_input_witness :
  handleSendMessage (mkState [] "   " false None None) (StreamEnded []) =
    (mkState [] "   " false None None, None).
Proof.
  destruct chat_request_holds_history_then_input as [H _].
  apply H. left. reflexivity.
Defined.

(** X20.  When the stream ends, the messages are the former ones, the user
    message, and one answer whose text is the texts of the chunks joined in
    arrival order and whose grounding chunks are those of the chunks joined
    in arrival order; the input is empty, nothing streams, no error is
    shown. *)
Theorem chat_answer_joins_chunks (s : State) (chunks : list StreamChunk) :
  blank (input s) = false -> isStreaming s = false ->
  fst (handleSendMessage s (StreamEnded chunks)) =
    mkState
      (messages s ++
       [mkMessage user (input s) None;
        mkMessage ai (answerText chunks) (Some (answerGrounding chunks))])
      "" false None (location s).
Proof.
  intros Hb Hs. unfold handleSendMessage. rewrite Hb, Hs. cbn [orb fst].
  rewrite (consume_answer chunks "" []
             (messages s ++ [mkMessage user (input s) None])).
  rewrite updateLast_app. unfold setGroundingChunks.
  cbn [sender text app]. rewrite <- app_assoc. reflexivity.
Qed.

Lemma chat_answer_joins_chunks_witness :
  messages
    (fst (handleSendMessage (mkState [] "hi" false None None)
            (StreamEnded [mkStreamChunk (Some "Xin ") None;
                          mkStreamChunk None (Some ["maps:1"]);
                          mkStreamChunk (Some "chào") (Some ["maps:2"])]))) =
  [mkMessage user "hi" None;
   mkMessage ai "Xin chào" (Some ["maps:1"; "maps:2"])].
Proof.
  rewrite (chat_answer_joins_chunks (mkState [] "hi" false None None) _
             eq_refl eq_refl).
  reflexivity.
Defined.

(** X21.  When the call or the stream fails, the error message is shown and
    an apology that quotes it is appended as a new answer.  If the stream had
    started, the partial answer received so far stays before the apology,
    without grounding chunks. *)
Theorem chat_failure_keeps_partial_answer
  (s : State) (chunks : list StreamChunk) (t : Thrown) :
  blank (input s) = false -> isStreaming s = false ->
  fst (handleSendMessage s (CallRejected t)) =
    mkState
      (messages s ++
       [mkMessage user (input s) None;
        mkMessage ai ("Xin lỗi, đã có lỗi xảy ra: " ++ errorMessageOf t) None])
      "" false (Some (errorMessageOf t)) (location s) /\
  fst (handleSendMessage s (StreamFailed chunks t)) =
    mkState
      (messages s ++
       [mkMessage user (input s) None;
        mkMessage ai (answerText chunks) None;
        mkMessage ai ("Xin lỗi, đã có lỗi xảy ra: " ++ errorMessageOf t) None])
      "" false (Some (errorMessageOf t)) (location s).
Proof.
  intros Hb Hs. unfold handleSendMessage. rewrite Hb, Hs. cbn [orb fst].
  split.
  - unfold failed. rewrite <- app_assoc. reflexivity.
  - rewrite (consume_answer chunks "" []
               (messages s ++ [mkMessage user (input s) None])).
    unfold failed. rewrite <- !app_assoc. reflexivity.
Qed.

Lemma chat_failure_keeps_partial_answer_witness :
  messages
    (fst (handleSendMessage (mkState [] "hi" false None None)
            (StreamFailed [mkStreamChunk (Some "Xin ") None]
                          (ThrownError "offline")))) =
  [mkMessage user "hi" None;
   mkMessage ai "Xin " None;
   mkMessage ai "Xin lỗi, đã có lỗi xảy ra: offline" None].
Proof.
  destruct (chat_failure_keeps_partial_answer (mkState [] "hi" false None None)
              [mkStreamChunk (Some "Xin ") None] (ThrownError "offline")
              eq_refl eq_refl) as [_ H].
  rewrite H. reflexivity.
Defined.

End ChatbotFacts.

(** ** The resources of a live session *)

Module LiveSessionFacts.

Import LiveSession.

Lemma isObject_In (x : nat) (objects : list nat) :
  isObject x objects = true <-> In x objects.
Proof.
  unfold isObject. rewrite existsb_exists. split.
  - intros [y [Hy Heq]]. apply Nat.eqb_eq in Heq. subst. exact Hy.
  - intros H. exists x. split; [exact H | apply Nat.eqb_refl].
Qed.

Lemma withoutObject_In (x y : nat) (objects : list nat) :
  In y (withoutObject x objects) <-> In y objects /\ y <> x.
Proof.
  unfold withoutObject. rewrite filter_In, negb_true_iff, Nat.eqb_neq.
  reflexivity.
Qed.

Lemma closeContext_In (ref : option nat) (open : list nat) (y : nat) :
  In y (snd (closeContext ref open)) <-> In y open /\ ref <> Some y.
Proof.
  unfold closeContext. destruct ref as [x|]; cbn [snd].
  - destruct (isObject x open) eqn:Hx; cbn [snd].
    + rewrite withoutObject_In. split; intros [Hy Hne]; (split; [exact Hy|]);
        congruence.
    + split; [|tauto]. intros Hy. split; [exact Hy|].
      intros Heq. injection Heq as ->.
      apply isObject_In in Hy. congruence.
  - split; [|tauto]. intros Hy. split; [exact Hy | discriminate].
Qed.

Lemma closeContext_ref (ref : option nat) (open : list nat) :
  (forall x, ref = Some x -> In x open) -> fst (closeContext ref open) = None.
Proof.
  unfold closeContext. destruct ref as [x|]; [|reflexivity].
  intros H. rewrite (proj2 (isObject_In x open) (H x eq_refl)). reflexivity.
Qed.

Lemma closeContext_kept (ref : option nat) (open : list nat) (x : nat) :
  fst (closeContext ref open) = Some x -> ref = Some x.
Proof.
  unfold closeContext. destruct ref as [y|]; [|discriminate].
  destruct (isObject y open); [discriminate | exact (fun H => H)].
Qed.

Lemma disconnect_In (ref : option nat) (connected : list nat) (y : nat) :
  In y (disconnect ref connected) <-> In y connected /\ ref <> Some y.
Proof.
  unfold disconnect. destruct ref as [x|].
  - rewrite withoutObject_In. split; intros [Hy Hne]; (split; [exact Hy|]);
      congruence.
  - split; [|tauto]. intros Hy. split; [exact Hy | discriminate].
Qed.

Lemma holdsContext_false (c : Component) (x : nat) :
  holdsContext c x = false <->
  audioContextRef c <> Some x /\ outputAudioContextRef c <> Some x.
Proof.
  unfold holdsContext. rewrite orb_false_iff.
  destruct (audioContextRef c) as [a|], (outputAudioContextRef c) as [b|];
    rewrite ?Nat.eqb_neq; split; intros [H1 H2]; split;
    congruence || discriminate || reflexivity.
Qed.

Lemma holdsNode_false (c : Component) (x : nat) :
  holdsNode c x = false <->
  scriptProcessorRef c <> Some x /\ mediaStreamSourceRef c <> Some x.
Proof.
  unfold holdsNode. rewrite orb_false_iff.
  destruct (scriptProcessorRef c) as [a|], (mediaStreamSourceRef c) as [b|];
    rewrite ?Nat.eqb_neq; split; intros [H1 H2]; split;
    congruence || discriminate || reflexivity.
Qed.

(** *** What [cleanup] releases *)

Lemma cleanup_contexts (c : Component) (x : nat) :
  In x (openContexts (cleanup c)) <->
  In x (openContexts c) /\ holdsContext c x = false.
Proof.
  unfold cleanup. cbn [openContexts].
  rewrite !closeContext_In, holdsContext_false. tauto.
Qed.

Lemma cleanup_nodes (c : Component) (x : nat) :
  In x (connectedNodes (cleanup c)) <->
  In x (connectedNodes c) /\ holdsNode c x = false.
Proof.
  unfold cleanup. cbn [connectedNodes].
  rewrite !disconnect_In, holdsNode_false. tauto.
Qed.

Lemma cleanup_clears_refs (c : Component) :
  wellFormed c -> refsCleared (cleanup c).
Proof.
  intros [Hin [Hout [Hne _]]]. unfold refsCleared, cleanup.
  cbn [scriptProcessorRef mediaStreamSourceRef audioContextRef
       outputAudioContextRef sourcesRef].
  split; [reflexivity|]. split; [reflexivity|].
  split; [exact (closeContext_ref _ _ Hin)|].
  split; [|reflexivity].
  apply closeContext_ref. intros y Hy. apply closeContext_In.
  split; [exact (Hout y Hy)|].
  intros Hx. exact (Hne y y Hx Hy eq_refl).
Qed.

Lemma cleanup_wellFormed (c : Component) :
  wellFormed c -> wellFormed (cleanup c).
Proof.
  intros Hwf. destruct (cleanup_clears_refs c Hwf) as [_ [_ [Hi [Ho _]]]].
  destruct Hwf as [_ [_ [_ Hlt]]].
  unfold wellFormed. rewrite Hi, Ho.
  split; [discriminate|]. split; [discriminate|]. split; [discriminate|].
  intros x Hx. apply cleanup_contexts in Hx. destruct Hx as [Hx _].
  exact (Hlt x Hx).
Qed.

(** *** One event *)

Lemma handle_releases (c : Component) (e : Event) :
  releases e = true ->
  exists c0,
    handle c e = cleanup c0 /\
    scriptProcessorRef c0 = scriptProcessorRef c /\
    mediaStreamSourceRef c0 = mediaStreamSourceRef c /\
    audioContextRef c0 = audioContextRef c /\
    outputAudioContextRef c0 = outputAudioContextRef c /\
    openContexts c0 = openContexts c /\
    connectedNodes c0 = connectedNodes c /\
    decoding c0 = decoding c /\
    created c0 = created c.
Proof.
  destruct e; try discriminate; intros _; cbn [handle];
    eexists; (split; [reflexivity|]); repeat split.
Qed.

Lemma wellFormed_same (c c0 : Component) :
  audioContextRef c0 = audioContextRef c ->
  outputAudioContextRef c0 = outputAudioContextRef c ->
  openContexts c0 = openContexts c ->
  created c0 = created c ->
  wellFormed c -> wellFormed c0.
Proof.
  unfold wellFormed. intros -> -> -> ->. exact (fun H => H).
Qed.

Lemma handle_wellFormed (c : Component) (e : Event) :
  wellFormed c -> wellFormed (handle c e).
Proof.
  intros Hwf.
  destruct (releases e) eqn:Hrel.
  - destruct (handle_releases c e Hrel)
      as [c0 [-> [_ [_ [Hi [Ho [Hopen [_ [_ Hcre]]]]]]]]].
    apply cleanup_wellFormed.
    exact (wellFormed_same c c0 Hi Ho Hopen Hcre Hwf).
  - destruct Hwf as [Hin [Hout [Hne Hlt]]].
    destruct e as [|[|]|[|]|[|]| |scheduled|source| | | |];
      try discriminate; cbn [handle];
      try (split; [exact Hin|]; split; [exact Hout|]; split; [exact Hne|];
           exact Hlt).
    + (* the microphone is granted *)
      unfold wellFormed.
      cbn [audioContextRef outputAudioContextRef openContexts created].
      split; [intros x H; injection H as <-; left; reflexivity|].
      split; [intros x H; injection H as <-; right; left; reflexivity|].
      split; [intros x y Hx Hy; injection Hx as <-; injection Hy as <-; lia|].
      intros x [<-|[<-|Hx]]; [lia | lia | specialize (Hlt x Hx); lia].
    + (* the nodes are created *)
      unfold wellFormed.
      cbn [audioContextRef outputAudioContextRef openContexts created].
      split; [exact Hin|]. split; [exact Hout|]. split; [exact Hne|].
      intros x Hx. specialize (Hlt x Hx). lia.
    + destruct (outputAudioContextRef c) eqn:E;
        (split; [exact Hin|]; split;
         [try rewrite E; cbn [outputAudioContextRef]; try rewrite E; exact Hout|];
         split; [try rewrite E; cbn [outputAudioContextRef audioContextRef];
                 try rewrite E; exact Hne|]; exact Hlt).
    + destruct (decoding c) as [|waiting];
        [split; [exact Hin|]; split; [exact Hout|]; split; [exact Hne|];
         exact Hlt|].
      destruct scheduled; unfold wellFormed;
        cbn [audioContextRef outputAudioContextRef openContexts created];
        (split; [exact Hin|]; split; [exact Hout|]; split; [exact Hne|]);
        [intros x Hx; specialize (Hlt x Hx); lia | exact Hlt].
Qed.

Lemma handleAll_wellFormed (es : list Event) (c : Component) :
  wellFormed c -> wellFormed (handleAll es c).
Proof.
  revert c; induction es as [|e es IH]; intros c Hwf; [exact Hwf|].
  apply (IH (handle c e)). apply handle_wellFormed. exact Hwf.
Qed.

Lemma mounted_wellFormed : wellFormed mounted.
Proof.
  unfold wellFormed, mounted. cbn.
  split; [discriminate|]. split; [discriminate|]. split; [discriminate|].
  intros x [].
Qed.

Lemma handle_status (c : Component) (e : Event) :
  status c <> LISTENING -> status (handle c e) <> LISTENING.
Proof.
  intros H. destruct e as [|[|]|[|]|[|]| |scheduled|source| | | |]; cbn;
    try discriminate; try exact H.
  - destruct (outputAudioContextRef c); exact H.
  - destruct (decoding c); [exact H|]. destruct scheduled; exact H.
Qed.

Lemma handle_microphone (c : Component) (e : Event) :
  microphoneStreams (handle c e) = microphoneStreams c + granted [e].
Proof.
  destruct e as [|[|]|[|]|[|]| |scheduled|source| | | |]; cbn; try lia.
  - destruct (outputAudioContextRef c); cbn; lia.
  - destruct (decoding c); [lia|]. destruct scheduled; cbn; lia.
Qed.

Lemma granted_cons (e : Event) (es : list Event) :
  granted (e :: es) = granted [e] + granted es.
Proof.
  destruct e as [|[|]|[|]|[|]| |scheduled|source| | | |]; reflexivity.
Qed.

Lemma handleAll_invariants (es : list Event) (c : Component) :
  status c <> LISTENING ->
  status (handleAll es c) <> LISTENING /\
  microphoneStreams (handleAll es c) = microphoneStreams c + granted es.
Proof.
  revert c; induction es as [|e es IH]; intros c Hc.
  - simpl. split; [exact Hc | lia].
  - change (handleAll (e :: es) c) with (handleAll es (handle c e)).
    destruct (IH (handle c e) (handle_status c e Hc)) as [Hs Hm].
    split; [exact Hs|].
    rewrite Hm, handle_microphone, (granted_cons e es). lia.
Qed.

(** *** A context that no ref holds stays open *)

Lemma handle_orphan (x : nat) (c : Component) (e : Event) :
  orphan x c -> orphan x (handle c e).
Proof.
  intros [Hopen [Hheld Hlt]].
  destruct (releases e) eqn:Hrel.
  - destruct (handle_releases c e Hrel)
      as [c0 [-> [_ [_ [Hi [Ho [Hop [_ [_ Hcre]]]]]]]]].
    assert (Hheld0 : holdsContext c0 x = false)
      by (unfold holdsContext; rewrite Hi, Ho; exact Hheld).
    split; [apply cleanup_contexts; rewrite Hop; split; assumption|].
    split.
    + apply holdsContext_false. apply holdsContext_false in Hheld0.
      destruct Hheld0 as [H1 H2]. unfold cleanup.
      cbn [audioContextRef outputAudioContextRef].
      split; intros H; apply closeContext_kept in H; congruence.
    + unfold cleanup. cbn [created]. rewrite Hcre. exact Hlt.
  - destruct e as [|[|]|[|]|[|]| |scheduled|source| | | |];
      try discriminate; cbn [handle];
      try (split; [exact Hopen|]; split; [exact Hheld | exact Hlt]).
    + unfold orphan, holdsContext.
      cbn [audioContextRef outputAudioContextRef openContexts created].
      split; [right; right; exact Hopen|].
      split; [|lia].
      apply orb_false_iff. split; apply Nat.eqb_neq; lia.
    + unfold orphan. split; [exact Hopen|]. split; [exact Hheld|].
      cbn [created]. lia.
    + destruct (outputAudioContextRef c) eqn:E;
        [|split; [exact Hopen|]; split; [exact Hheld | exact Hlt]].
      unfold orphan, holdsContext in *.
      cbn [audioContextRef outputAudioContextRef openContexts created].
      rewrite E in *. split; [exact Hopen|]. split; [exact Hheld | exact Hlt].
    + destruct (decoding c) as [|waiting];
        [split; [exact Hopen|]; split; [exact Hheld | exact Hlt]|].
      destruct scheduled; unfold orphan;
        (split; [exact Hopen|]; split; [exact Hheld|]); cbn [created];
        [lia | exact Hlt].
Qed.

Lemma handleAll_orphan (x : nat) (es : list Event) (c : Component) :
  orphan x c -> orphan x (handleAll es c).
Proof.
  revert c; induction es as [|e es IH]; intros c H; [exact H|].
  apply (IH (handle c e)). apply handle_orphan. exact H.
Qed.

(** X22.  Whatever happens to the component after it is mounted: its status
    is never LISTENING, and no microphone stream obtained from getUserMedia
    is ever given back (their number is the number of granted requests).  An
    error, a close, the end of the session and the unmount each clear the
    four refs and the scheduled sources, and they close the contexts and
    disconnect the nodes that the refs held then, and only those: an audio
    context that no ref holds any more, because a later session start took
    its place in the ref, stays open whatever happens next.  Nor do they
    cancel a decoding under way: when it finishes afterwards, its source is
    scheduled and is then the only one held. *)
Theorem session_never_listens_nor_frees_microphone (es : list Event) :
  status (handleAll es mounted) <> LISTENING /\
  microphoneStreams (handleAll es mounted) = granted es /\
  (forall e,
      releases e = true ->
      refsCleared (handle (handleAll es mounted) e) /\
      (forall x,
          In x (openContexts (handle (handleAll es mounted) e)) <->
          In x (openContexts (handleAll es mounted)) /\
          holdsContext (handleAll es mounted) x = false) /\
      (forall x,
          In x (connectedNodes (handle (handleAll es mounted) e)) <->
          In x (connectedNodes (handleAll es mounted)) /\
          holdsNode (handleAll es mounted) x = false)) /\
  (forall x later,
      In x (openContexts (handleAll es mounted)) ->
      holdsContext (handleAll es mounted) x = false ->
      In x (openContexts (handleAll later (handleAll es mounted)))) /\
  (forall e,
      releases e = true ->
      0 < decoding (handleAll es mounted) ->
      sourcesRef (handleAll [e; Decoded true] (handleAll es mounted)) =
        [created (handleAll es mounted)]).
Proof.
  destruct (handleAll_invariants es mounted) as [Hs Hm]; [discriminate|].
  pose proof (handleAll_wellFormed es mounted mounted_wellFormed) as Hwf.
  set (c := handleAll es mounted) in *.
  split; [exact Hs|]. split; [exact Hm|]. split; [|split].
  - intros e He.
    destruct (handle_releases c e He)
      as [c0 [-> [Hsp [Hms [Hi [Ho [Hop [Hcn [_ Hcre]]]]]]]]].
    split; [|split].
    + apply cleanup_clears_refs.
      exact (wellFormed_same c c0 Hi Ho Hop Hcre Hwf).
    + intros x. rewrite cleanup_contexts, Hop.
      unfold holdsContext. rewrite Hi, Ho. reflexivity.
    + intros x. rewrite cleanup_nodes, Hcn.
      unfold holdsNode. rewrite Hsp, Hms. reflexivity.
  - intros x later Hopen Hheld.
    assert (Horphan : orphan x c).
    { split; [exact Hopen|]. split; [exact Hheld|].
      destruct Hwf as [_ [_ [_ Hlt]]]. exact (Hlt x Hopen). }
    destruct (handleAll_orphan x later c Horphan) as [H _]. exact H.
  - intros e He Hd.
    change (handleAll [e; Decoded true] c)
      with (handle (handle c e) (Decoded true)).
    destruct (handle_releases c e He)
      as [c0 [-> [_ [_ [_ [_ [_ [_ [Hdec Hcre]]]]]]]]].
    cbn [handle]. unfold cleanup at 1. cbn [decoding]. rewrite Hdec.
    destruct (decoding c) as [|waiting]; [lia|].
    cbn [sourcesRef]. unfold cleanup. cbn [sourcesRef created].
    rewrite Hcre. reflexivity.
Qed.

Lemma session_never_listens_nor_frees_microphone_witness :
  In 0 (openContexts (handleAll [Unmount; StartSession; EndSession]
                        (handleAll restartedWhilePending mounted))) /\
  sourcesRef (handleAll [OnClose; Decoded true]
                (handleAll closedWhileDecoding mounted)) = [4].
Proof.
  split.
  - destruct (session_never_listens_nor_frees_microphone restartedWhilePending)
      as [_ [_ [_ [Hstays _]]]].
    apply (Hstays 0 [Unmount; StartSession; EndSession]).
    + cbn. tauto.
    + reflexivity.
  - destruct (session_never_listens_nor_frees_microphone closedWhileDecoding)
      as [_ [_ [_ [_ Hlate]]]].
    apply (Hlate OnClose eq_refl). cbn. lia.
Defined.

End LiveSessionFacts.
